(** * Conversation state manager of the Twilio voice chatbot

    A shallow embedding of [chatbot/conversation.py]: the [Message] and
    [Conversation] data classes and the [ConversationManager] with its
    lazily created conversations, history, statistics, search and the
    opportunistic eviction pass.

    Modelling conventions.
    - A Python [dict] keeps its keys in insertion order, and the manager
      depends on that order (scan order of the search, tie-breaking of the
      stable sort in the eviction pass).  The store is therefore an
      association list in insertion order; free-form metadata dictionaries,
      whose order is never observed, are [gmap]s.
    - A [datetime] is the number of microseconds on the local time line and
      a [timedelta] a number of microseconds; [time.time()] is read on the
      same microsecond grid.  Floating point results are kept as exact
      fractions.
    - The clock is an input: every operation receives the values that its
      calls of [time.time()] and [datetime.now()] return, one per call site.
      No relation between successive readings is assumed.
    - A [str] is a sequence of characters with code points below 256, one
      [ascii] per character; on these [str.lower()] and the digits of the
      regular expressions are as defined below.
    - Python objects have an identity ([conv1 is conv2] in the test-suite).
      The identity of a [Conversation] object is kept in the field [obj_id],
      handed out by the allocation counter [next_id]; neither exists in the
      source, both only record which object is which. *)

From Stdlib Require Import ZArith.
From stdpp Require Import gmap strings list sorting.

Local Open Scope Z_scope.

(** ** Values *)

Definition datetime := Z.
Definition timedelta := Z.

(** The values the manager stores in metadata dictionaries. [VIso t] is the
    text [t.isoformat()]; [VFloat n d] is the float [n / d]. *)
Inductive Value :=
| VStr (s : string)
| VInt (n : Z)
| VFloat (num : Z) (den : positive)
| VIso (t : datetime)
| VBool (b : bool).

(** [timedelta.total_seconds()] *)
Definition total_seconds (d : timedelta) : Value := VFloat d 1000000.

(** [timedelta(hours=h)] *)
Definition hours (h : Z) : timedelta := h * 3600 * 1000000.

(** ** Data classes *)

Record Message := {
  role : string;
  content : string;
  timestamp : datetime;
  msg_metadata : gmap string Value
}.

Record Conversation := {
  call_sid : string;
  from_number : string;
  to_number : string;
  start_time : datetime;
  messages : list Message;
  is_active : bool;
  metadata : gmap string Value;
  obj_id : nat
}.

(** [self.conversations]: call SID to conversation object, insertion order. *)
Abbreviation Dict := (list (string * Conversation)).

Record ConversationManager := {
  conversations : Dict;
  max_conversations : Z;
  cleanup_interval : Z;
  last_cleanup : Z;
  next_id : nat
}.

(** The clock readings of one call of a manager method, one field per call
    site of the clock that the method can reach. *)
Record Clock := {
  time_time : Z;            (* time.time() in _cleanup_old_conversations *)
  now_cutoff : datetime;    (* datetime.now() for the cut-off time       *)
  now_created : datetime;   (* datetime.now() for start_time             *)
  now_stamp : datetime;     (* datetime.now() for the message timestamp  *)
  now_activity : datetime;  (* datetime.now() for last_activity          *)
  now_stats : datetime      (* datetime.now() for duration_seconds       *)
}.

(** ** Dictionary operations on the store *)

Fixpoint dict_get (k : string) (d : Dict) : option Conversation :=
  match d with
  | [] => None
  | (k', c) :: d' => if decide (k' = k) then Some c else dict_get k d'
  end.

(** [k in d] *)
Definition dict_in (k : string) (d : Dict) : bool :=
  match dict_get k d with Some _ => true | None => false end.

(** [del d[k]] *)
Definition dict_del (k : string) (d : Dict) : Dict :=
  filter (λ e, e.1 ≠ k) d.

(** [d[k] = c] for a key that is not in [d]: the entry goes to the end. *)
Definition dict_add (k : string) (c : Conversation) (d : Dict) : Dict :=
  d ++ [(k, c)].

(** In-place mutation of the object stored under [k]. *)
Definition dict_mutate (f : Conversation → Conversation) (k : string) (d : Dict) : Dict :=
  (λ e, if decide (e.1 = k) then (e.1, f e.2) else e) <$> d.

Definition dict_len (d : Dict) : Z := Z.of_nat (length d).

Definition set_conversations (d : Dict) (m : ConversationManager) : ConversationManager :=
  {| conversations := d;
     max_conversations := max_conversations m;
     cleanup_interval := cleanup_interval m;
     last_cleanup := last_cleanup m;
     next_id := next_id m |}.

Definition set_last_cleanup (t : Z) (m : ConversationManager) : ConversationManager :=
  {| conversations := conversations m;
     max_conversations := max_conversations m;
     cleanup_interval := cleanup_interval m;
     last_cleanup := t;
     next_id := next_id m |}.

(** ** ConversationManager.__init__ *)

Definition init (max_conv interval : Z) (t : Z) : ConversationManager :=
  {| conversations := [];
     max_conversations := max_conv;
     cleanup_interval := interval;
     last_cleanup := t;
     next_id := 0 |}.

(** ** The eviction pass: _cleanup_old_conversations *)

(** [sorted(items, key=start_time)]: a stable insertion sort. *)
Fixpoint insert_by_start (e : string * Conversation) (l : Dict) : Dict :=
  match l with
  | [] => [e]
  | x :: l' =>
      if start_time e.2 <=? start_time x.2 then e :: x :: l'
      else x :: insert_by_start e l'
  end.

Definition sorted_by_start (d : Dict) : Dict := foldr insert_by_start [] d.

(** The call SIDs collected in [old_conversations]. *)
Definition old_conversations (cutoff_time : datetime) (d : Dict) : list string :=
  (filter (λ e, start_time e.2 < cutoff_time ∧ is_active e.2 = false) d).*1.

(** Age-based sweep: delete every collected call SID. *)
Definition age_sweep (cutoff_time : datetime) (d : Dict) : Dict :=
  foldl (λ d' k, dict_del k d') d (old_conversations cutoff_time d).

(** One round of the capacity loop, for the entry [e] of the sorted list;
    [inactive] is the dictionary of inactive conversations taken before the
    loop. *)
Definition capacity_step (max_conv : Z) (inactive : Dict) (d : Dict)
    (e : string * Conversation) : Dict :=
  if dict_in e.1 inactive && (dict_len d >? max_conv) then dict_del e.1 d else d.

(** Capacity-based sweep. *)
Definition capacity_sweep (max_conv : Z) (d : Dict) : Dict :=
  if dict_len d >? max_conv then
    let sorted_conversations := sorted_by_start d in
    let inactive_conversations := filter (λ e, is_active e.2 = false) d in
    foldl (capacity_step max_conv inactive_conversations) d sorted_conversations
  else d.

(** The pass proper, once the throttle has let it through. *)
Definition eviction_pass (now : datetime) (max_conv : Z) (d : Dict) : Dict :=
  capacity_sweep max_conv (age_sweep (now - hours 24) d).

(** [cleanup_interval] is in seconds, the readings of [time.time()] are in
    microseconds. *)
Definition _cleanup_old_conversations (current_time : Z) (now : datetime)
    (m : ConversationManager) : ConversationManager :=
  if current_time - last_cleanup m <? cleanup_interval m * 1000000 then m
  else
    set_last_cleanup current_time
      (set_conversations (eviction_pass now (max_conversations m) (conversations m)) m).

(** ** get_conversation *)

(** [x or "unknown"] for an optional string argument. *)
Definition or_unknown (x : option string) : string :=
  match x with
  | None => "unknown"
  | Some s => if decide (s = EmptyString) then "unknown" else s
  end.

Definition new_conversation (sid : string) (from_number to_number : option string)
    (now : datetime) (id : nat) : Conversation :=
  {| call_sid := sid;
     from_number := or_unknown from_number;
     to_number := or_unknown to_number;
     start_time := now;
     messages := [];
     is_active := true;
     metadata := ∅;
     obj_id := id |}.

Definition get_conversation (clk : Clock) (sid : string)
    (from_number to_number : option string) (m : ConversationManager)
    : Conversation * ConversationManager :=
  let m1 := _cleanup_old_conversations (time_time clk) (now_cutoff clk) m in
  match dict_get sid (conversations m1) with
  | None =>
      let conversation :=
        new_conversation sid from_number to_number (now_created clk) (next_id m1) in
      (conversation,
       {| conversations := dict_add sid conversation (conversations m1);
          max_conversations := max_conversations m1;
          cleanup_interval := cleanup_interval m1;
          last_cleanup := last_cleanup m1;
          next_id := S (next_id m1) |})
  | Some conversation => (conversation, m1)
  end.

(** ** add_message *)

(** [metadata or {}] *)
Definition or_empty (md : option (gmap string Value)) : gmap string Value :=
  match md with None => ∅ | Some d => d end.

Definition append_to (msg : Message) (now : datetime) (c : Conversation) : Conversation :=
  let msgs := messages c ++ [msg] in
  {| call_sid := call_sid c;
     from_number := from_number c;
     to_number := to_number c;
     start_time := start_time c;
     messages := msgs;
     is_active := is_active c;
     metadata :=
       <["message_count" := VInt (Z.of_nat (length msgs))]>
         (<["last_activity" := VIso now]> (metadata c));
     obj_id := obj_id c |}.

Definition add_message (clk : Clock) (sid : string) (r : string) (txt : string)
    (md : option (gmap string Value)) (m : ConversationManager)
    : bool * ConversationManager :=
  let '(_, m1) := get_conversation clk sid None None m in
  let message :=
    {| role := r; content := txt; timestamp := now_stamp clk;
       msg_metadata := or_empty md |} in
  (true,
   set_conversations
     (dict_mutate (append_to message (now_activity clk)) sid (conversations m1)) m1).

(** ** get_history *)

Record HistoryEntry := {
  h_role : string;
  h_content : string;
  h_timestamp : Value;
  h_metadata : gmap string Value
}.

Definition history_entry (msg : Message) : HistoryEntry :=
  {| h_role := role msg;
     h_content := content msg;
     h_timestamp := VIso (timestamp msg);
     h_metadata := msg_metadata msg |}.

(** [l[-n:]] for [n > 0] *)
Definition slice_last {A} (n : Z) (l : list A) : list A :=
  drop (length l - Z.to_nat n)%nat l.

Definition get_history (clk : Clock) (sid : string) (limit : Z)
    (m : ConversationManager) : list HistoryEntry * ConversationManager :=
  let '(conversation, m1) := get_conversation clk sid None None m in
  let recent_messages :=
    if limit >? 0 then slice_last limit (messages conversation)
    else messages conversation in
  (history_entry <$> recent_messages, m1).

(** ** end_conversation *)

Definition ended (now_end now_duration : datetime) (c : Conversation) : Conversation :=
  {| call_sid := call_sid c;
     from_number := from_number c;
     to_number := to_number c;
     start_time := start_time c;
     messages := messages c;
     is_active := false;
     metadata :=
       <["duration" := total_seconds (now_duration - start_time c)]>
         (<["end_time" := VIso now_end]> (metadata c));
     obj_id := obj_id c |}.

Definition end_conversation (now_end now_duration : datetime) (sid : string)
    (m : ConversationManager) : bool * ConversationManager :=
  if dict_in sid (conversations m) then
    (true,
     set_conversations
       (dict_mutate (ended now_end now_duration) sid (conversations m)) m)
  else (false, m).

(** ** get_conversation_stats *)

Record Stats := {
  st_call_sid : string;
  st_from_number : string;
  st_to_number : string;
  st_start_time : Value;
  st_is_active : bool;
  total_messages : Z;
  user_messages : Z;
  assistant_messages : Z;
  duration_seconds : Value;
  st_metadata : gmap string Value
}.

Definition with_role (r : string) (msgs : list Message) : list Message :=
  filter (λ msg, role msg = r) msgs.

Definition get_conversation_stats (clk : Clock) (sid : string)
    (m : ConversationManager) : Stats * ConversationManager :=
  let '(conversation, m1) := get_conversation clk sid None None m in
  let user_msgs := with_role "user" (messages conversation) in
  let assistant_msgs := with_role "assistant" (messages conversation) in
  ({| st_call_sid := sid;
      st_from_number := from_number conversation;
      st_to_number := to_number conversation;
      st_start_time := VIso (start_time conversation);
      st_is_active := is_active conversation;
      total_messages := Z.of_nat (length (messages conversation));
      user_messages := Z.of_nat (length user_msgs);
      assistant_messages := Z.of_nat (length assistant_msgs);
      duration_seconds := total_seconds (now_stats clk - start_time conversation);
      st_metadata := metadata conversation |},
   m1).

(** ** export_conversation *)

Record Export := {
  ex_call_sid : string;
  ex_from_number : string;
  ex_to_number : string;
  ex_start_time : Value;
  ex_is_active : bool;
  ex_metadata : gmap string Value;
  ex_messages : list HistoryEntry
}.

Definition export_conversation (clk : Clock) (sid : string)
    (m : ConversationManager) : Export * ConversationManager :=
  let '(conversation, m1) := get_conversation clk sid None None m in
  ({| ex_call_sid := call_sid conversation;
      ex_from_number := from_number conversation;
      ex_to_number := to_number conversation;
      ex_start_time := VIso (start_time conversation);
      ex_is_active := is_active conversation;
      ex_metadata := metadata conversation;
      ex_messages := history_entry <$> messages conversation |},
   m1).

(** ** search_conversations *)

(** [str.lower()] on one character.  Below code point 256 the characters
    with another lower-case form are the letters A to Z and the letters
    from U+00C0 to U+00DE (the multiplication sign U+00D7 among them is
    not a letter); the lower-case form is 32 code points further on. *)
Definition lower_char (a : Ascii.ascii) : Ascii.ascii :=
  let n := Ascii.N_of_ascii a in
  if (((65 <=? n) && (n <=? 90)) ||
      ((192 <=? n) && (n <=? 222) && negb (n =? 215)))%N
  then Ascii.ascii_of_N (n + 32) else a.

(** [str.lower()] *)
Fixpoint lower (s : string) : string :=
  match s with
  | EmptyString => EmptyString
  | String a s' => String (lower_char a) (lower s')
  end.

Fixpoint starts_with (p s : string) : bool :=
  match p, s with
  | EmptyString, _ => true
  | String a p', String b s' => bool_decide (a = b) && starts_with p' s'
  | String _ _, EmptyString => false
  end.

(** [p in s] *)
Fixpoint contains (p s : string) : bool :=
  starts_with p s ||
  match s with
  | EmptyString => false
  | String _ s' => contains p s'
  end.

(** The inner loop: the content of the first message that matches. *)
Fixpoint first_match (query_lower : string) (msgs : list Message) : option string :=
  match msgs with
  | [] => None
  | message :: msgs' =>
      if contains query_lower (lower (content message)) then Some (content message)
      else first_match query_lower msgs'
  end.

(** A result: the statistics with the added key [matching_message]. *)
Record SearchResult := {
  sr_stats : Stats;
  matching_message : string
}.

(** The entries of [d] that the iterator has before it after a round of the
    loop: those of [ahead], the entries it had before it, that [d] still
    holds, and the entries made during the round, whose identity is not
    below [n], the value of the allocation counter before the round; all in
    the order of [d]. *)
Definition still_ahead (ahead : Dict) (n : nat) (d : Dict) : Dict :=
  filter (λ e, obj_id e.2 ∈ (obj_id ∘ snd <$> ahead) ∨ (n ≤ obj_id e.2)%nat) d.

(** The outer loop, [for conversation in self.conversations.values()].

    The loop body can change the dictionary it iterates over:
    [get_conversation_stats] runs the eviction pass and creates the
    conversation again when the pass has just removed it.  The iterator of
    CPython (3.8 and later; [dictiter_iternextvalue] and [insertion_resize]
    in [Objects/dictobject.c]) keeps a position in the entry table of the
    dictionary, the number [used] of entries the dictionary had when the
    iterator was made, and the number [len] of entries it has still to
    hand out.  On each step
    - it raises [RuntimeError] when the dictionary has not [used] entries;
    - it goes to the next entry behind its position and ends the loop when
      there is none: deleted entries are skipped, and an entry added
      meanwhile is in the last place;
    - it raises [RuntimeError] when it finds an entry although [len] is 0.
    [ahead] holds the entries behind the position of the iterator.

    An insertion for which the entry table has no room left rebuilds the
    table without the places of deleted entries: the entries move towards
    the front, by the number of such places before them, and the position
    of the iterator stays.  The iterator then skips as many of the entries
    before it as there are places of deleted entries before its position.
    This number depends on the deletions and insertions since the table
    was last rebuilt, which the store does not record; it is the input
    [shift i], for the round with the call of [get_conversation_stats] of
    index [i], and it is 0 when the table is not rebuilt.

    The result [None] stands for the [RuntimeError]. *)
Fixpoint search_loop (query_lower : string) (limit : Z) (clks : nat → Clock)
    (shift : nat → nat) (used len : nat) (ahead : Dict)
    (results : list SearchResult) (m : ConversationManager)
    : option (list SearchResult) * ConversationManager :=
  if negb (length (conversations m) =? used)%nat then (None, m)
  else
    match ahead, len with
    | [], _ => (Some results, m)
    | _ :: _, O => (None, m)
    | e :: ahead', S len' =>
        let conversation := e.2 in
        let '(results', m') :=
          match first_match query_lower (messages conversation) with
          | Some txt =>
              let '(stats, m') :=
                get_conversation_stats (clks (length results))
                  (call_sid conversation) m in
              (results ++ [{| sr_stats := stats; matching_message := txt |}], m')
          | None => (results, m)
          end in
        if Z.of_nat (length results') >=? limit then (Some results', m')
        else
          let ahead1 := still_ahead ahead' (next_id m) (conversations m') in
          let ahead2 :=
            if (next_id m <? next_id m')%nat
            then drop (shift (length results)) ahead1 else ahead1 in
          search_loop query_lower limit clks shift used len' ahead2 results' m'
    end.

(** [clks i] holds the clock readings of the call of [get_conversation_stats]
    for the result with index [i], and [shift i] what the iterator skips
    after that call.  Any exception ends in [return []]. *)
Definition search_conversations (clks : nat → Clock) (shift : nat → nat)
    (query : string) (limit : Z) (m : ConversationManager)
    : list SearchResult * ConversationManager :=
  let d := conversations m in
  match search_loop (lower query) limit clks shift (length d) (length d) d [] m with
  | (Some results, m') => (results, m')
  | (None, m') => ([], m')
  end.

(** ** get_all_conversations *)

(** [sorted(values, key=start_time, reverse=True)]: stable, newest first. *)
Fixpoint insert_newest_first (e : string * Conversation) (l : Dict) : Dict :=
  match l with
  | [] => [e]
  | x :: l' =>
      if start_time x.2 <=? start_time e.2 then e :: x :: l'
      else x :: insert_newest_first e l'
  end.

Definition sorted_newest_first (d : Dict) : Dict := foldr insert_newest_first [] d.

(** [l[:n]] *)
Definition slice_first {A} (n : Z) (l : list A) : list A :=
  if n <? 0 then take (length l - Z.to_nat (- n))%nat l else take (Z.to_nat n) l.

(** The loop over the slice of the sorted list; [clks i] holds the clock
    readings of the call of [get_conversation_stats] with index [i]. *)
Fixpoint all_conversations_loop (clks : nat → Clock) (i : nat) (l : Dict)
    (m : ConversationManager) : list Stats * ConversationManager :=
  match l with
  | [] => ([], m)
  | e :: l' =>
      let '(stats, m1) := get_conversation_stats (clks i) (call_sid e.2) m in
      let '(summaries, m2) := all_conversations_loop clks (S i) l' m1 in
      (stats :: summaries, m2)
  end.

Definition get_all_conversations (clks : nat → Clock) (limit : Z)
    (m : ConversationManager) : list Stats * ConversationManager :=
  all_conversations_loop clks 0
    (slice_first limit (sorted_newest_first (conversations m))) m.

(** * A caller and the helpers

    Strings are sequences of 8-bit characters; among these the decimal
    digits of the regular expression [\D] are the characters 0 to 9. *)

(** ** LLMHandler._build_messages (chatbot/llm_handler.py) *)

Record ChatMessage := {
  cm_role : string;
  cm_content : string
}.

(** One round of the loop over the history: what is appended for the
    dictionary [message]. *)
Definition history_message (message : gmap string string) : list ChatMessage :=
  let r := if decide (message !! "role" = Some "user") then "user" else "assistant" in
  let txt := default EmptyString (message !! "content") in
  if decide (txt = EmptyString) then []
  else [{| cm_role := r; cm_content := txt |}].

Definition _build_messages (system_message user_input : string)
    (conversation_history : option (list (gmap string string))) : list ChatMessage :=
  [{| cm_role := "system"; cm_content := system_message |}] ++
  match conversation_history with
  | Some ((_ :: _) as history) => slice_last 10 history ≫= history_message
  | _ => []
  end ++
  [{| cm_role := "user"; cm_content := user_input |}].

(** ** Phone numbers (utils/helpers.py) *)

Definition is_digit (a : Ascii.ascii) : bool :=
  let n := Ascii.N_of_ascii a in ((48 <=? n) && (n <=? 57))%N.

(** [re.sub(r'\D', '', s)] *)
Fixpoint digits_of (s : string) : string :=
  match s with
  | EmptyString => EmptyString
  | String a s' => if is_digit a then String a (digits_of s') else digits_of s'
  end.

(** [s[n:]] for [n >= 0] *)
Fixpoint skip_chars (n : nat) (s : string) : string :=
  match n, s with
  | O, _ => s
  | S n', String _ s' => skip_chars n' s'
  | S _, EmptyString => EmptyString
  end.

(** [s[:n]] for [n >= 0] *)
Fixpoint keep_chars (n : nat) (s : string) : string :=
  match n, s with
  | S n', String a s' => String a (keep_chars n' s')
  | _, _ => EmptyString
  end.

(** [s[-n:]] for [n > 0] *)
Definition last_chars (n : nat) (s : string) : string :=
  skip_chars (String.length s - n) s.

(** [s[:k]] for any integer [k] *)
Definition first_chars (k : Z) (s : string) : string :=
  if k <? 0 then keep_chars (String.length s - Z.to_nat (- k)) s
  else keep_chars (Z.to_nat k) s.

Definition sanitize_phone_number (phone_number : string) : string :=
  if decide (phone_number = EmptyString) then EmptyString
  else
    let digits := digits_of phone_number in
    if decide (String.length digits = 10%nat) then "+1" +:+ digits
    else if bool_decide (String.length digits = 11%nat) && starts_with "1" digits
    then "+" +:+ digits
    else if bool_decide (10 ≤ String.length digits)%nat then "+" +:+ digits
    else phone_number.


Definition mask_phone_number (phone_number : string) : string :=
  if decide (phone_number = EmptyString) then EmptyString
  else
    let digits := digits_of phone_number in
    if bool_decide (4 ≤ String.length digits)%nat
    then "***-***-" +:+ last_chars 4 digits
    else "***-***-****".

(** ** truncate_text (utils/helpers.py) *)

Definition truncate_text (text : string) (max_length : Z) : string :=
  if bool_decide (text = EmptyString) || (Z.of_nat (String.length text) <=? max_length)
  then text
  else first_chars (max_length - 3) text +:+ "...".

(** ** rate_limit_check (utils/helpers.py) *)

(** The character [_]. *)
Definition underscore : Ascii.ascii := Ascii.ascii_of_N 95.

(** [s.split('_')[0]], which is [s] itself when [s] has no underscore. *)
Fixpoint before_underscore (s : string) : string :=
  match s with
  | EmptyString => EmptyString
  | String a s' =>
      if decide (a = underscore) then EmptyString else String a (before_underscore s')
  end.

Definition minutes (n : Z) : timedelta := n * 60 * 1000000.
Definition days (n : Z) : timedelta := n * 24 * 3600 * 1000000.

(** The calls of the list that are less than [window] before [now]. *)
Definition calls_within (now : datetime) (window : timedelta)
    (calls : list datetime) : list datetime :=
  filter (λ call_time, now - call_time < window) calls.

(** [now] is the reading of [datetime.now()]; the result is the returned
    flag and [call_history] after the call. *)
Definition rate_limit_check (now : datetime) (call_sid : string)
    (rate_limits : gmap string Z) (call_history : gmap string (list datetime))
    : bool * gmap string (list datetime) :=
  let phone_number := before_underscore call_sid in
  let recent := calls_within now (days 1) (default [] (call_history !! phone_number)) in
  let calls_per_minute := Z.of_nat (length (calls_within now (minutes 1) recent)) in
  let calls_per_hour := Z.of_nat (length (calls_within now (hours 1) recent)) in
  let calls_per_day := Z.of_nat (length recent) in
  if (calls_per_minute >? default 10 (rate_limits !! "calls_per_minute")) ||
     (calls_per_hour >? default 100 (rate_limits !! "calls_per_hour")) ||
     (calls_per_day >? default 1000 (rate_limits !! "calls_per_day"))
  then (false, <[phone_number := recent]> call_history)
  else (true, <[phone_number := recent ++ [now]]> call_history).

(** A burst of calls with the same call SID, at the given readings of the
    clock: the flags returned and the history after the last call. *)
Fixpoint rate_limit_burst (times : list datetime) (call_sid : string)
    (rate_limits : gmap string Z) (call_history : gmap string (list datetime))
    : list bool * gmap string (list datetime) :=
  match times with
  | [] => ([], call_history)
  | now :: times' =>
      let '(ok, history1) := rate_limit_check now call_sid rate_limits call_history in
      let '(oks, history2) := rate_limit_burst times' call_sid rate_limits history1 in
      (ok :: oks, history2)
  end.

(** * Vocabulary of the properties *)

(** ** The invariant of reachable managers *)

(** Keys are unique, as in every dictionary; every object is stored once
    and under its own call SID, and was allocated before [next_id]. *)
Definition wf (m : ConversationManager) : Prop :=
  NoDup (conversations m).*1 ∧
  NoDup (obj_id ∘ snd <$> conversations m) ∧
  Forall (λ e, (obj_id e.2 < next_id m)%nat ∧ call_sid e.2 = e.1) (conversations m).

Global Instance wf_dec m : Decision (wf m).
Proof. unfold wf. apply _. Defined.

(** The messages stored for a call SID; none when it has no conversation. *)
Definition messages_of (sid : string) (m : ConversationManager) : list Message :=
  match dict_get sid (conversations m) with
  | Some c => messages c
  | None => []
  end.

(** The call SID has no ended conversation in the store. *)
Definition not_ended (sid : string) (m : ConversationManager) : Prop :=
  match dict_get sid (conversations m) with
  | Some c => is_active c = true
  | None => True
  end.

(** ** The eviction pass *)

(** The order of [sorted(..., key=start_time)]. *)
Definition by_start (a b : string * Conversation) : Prop :=
  start_time a.2 ≤ start_time b.2.

(** The conversations the capacity loop deletes: the first inactive ones of
    the sorted list, as many as the store is above the cap. *)
Definition capacity_victims (max_conv : Z) (d : Dict) : Dict :=
  take (Z.to_nat (dict_len d - max_conv))
       (filter (λ e, is_active e.2 = false) (sorted_by_start d)).

(** ** Sequences of operations *)

(** The public methods of the manager and the eviction pass, with their
    arguments and clock readings. *)
Inductive Op :=
| OpGetConversation (clk : Clock) (sid : string) (from_number to_number : option string)
| OpAddMessage (clk : Clock) (sid r txt : string) (md : option (gmap string Value))
| OpGetHistory (clk : Clock) (sid : string) (limit : Z)
| OpEndConversation (now_end now_duration : datetime) (sid : string)
| OpStats (clk : Clock) (sid : string)
| OpAllConversations (clks : nat → Clock) (limit : Z)
| OpSearch (clks : nat → Clock) (shift : nat → nat) (query : string) (limit : Z)
| OpExport (clk : Clock) (sid : string)
| OpCleanup (current_time : Z) (now : datetime).

(** The manager after the operation. *)
Definition step (op : Op) (m : ConversationManager) : ConversationManager :=
  match op with
  | OpGetConversation clk sid f t => (get_conversation clk sid f t m).2
  | OpAddMessage clk sid r txt md => (add_message clk sid r txt md m).2
  | OpGetHistory clk sid limit => (get_history clk sid limit m).2
  | OpEndConversation t1 t2 sid => (end_conversation t1 t2 sid m).2
  | OpStats clk sid => (get_conversation_stats clk sid m).2
  | OpAllConversations clks limit => (get_all_conversations clks limit m).2
  | OpSearch clks shift query limit => (search_conversations clks shift query limit m).2
  | OpExport clk sid => (export_conversation clk sid m).2
  | OpCleanup t now => _cleanup_old_conversations t now m
  end.

Definition run (ops : list Op) (m : ConversationManager) : ConversationManager :=
  foldl (λ m' op, step op m') m ops.

(** [m'] holds objects of [m] with their activity flag unchanged, and
    objects allocated since, which are active. *)
Definition grows (m m' : ConversationManager) : Prop :=
  wf m' ∧ (next_id m ≤ next_id m')%nat ∧
  ∀ e', e' ∈ conversations m' →
    (∃ e, e ∈ conversations m ∧ obj_id e.2 = obj_id e'.2 ∧
          is_active e.2 = is_active e'.2) ∨
    ((next_id m ≤ obj_id e'.2)%nat ∧ is_active e'.2 = true).

(** One operation: objects of [m] whose flag did not go back to active,
    and new objects, which are active. *)
Definition advances (m m' : ConversationManager) : Prop :=
  wf m' ∧ (next_id m ≤ next_id m')%nat ∧
  ∀ e', e' ∈ conversations m' →
    (∃ e, e ∈ conversations m ∧ obj_id e.2 = obj_id e'.2 ∧
          (is_active e.2 = false → is_active e'.2 = false)) ∨
    ((next_id m ≤ obj_id e'.2)%nat ∧ is_active e'.2 = true).

(** Any number of operations: objects of [m] whose flag did not go back to
    active, and objects allocated later. *)
Definition evolves (m m' : ConversationManager) : Prop :=
  wf m' ∧ (next_id m ≤ next_id m')%nat ∧
  ∀ e', e' ∈ conversations m' →
    (∃ e, e ∈ conversations m ∧ obj_id e.2 = obj_id e'.2 ∧
          (is_active e.2 = false → is_active e'.2 = false)) ∨
    (next_id m ≤ obj_id e'.2)%nat.

(** ** Appends among other operations *)

(** The messages that the calls of [add_message] for [sid] among the
    operations construct, in the order of the calls. *)
Definition appended (sid : string) (op : Op) : list Message :=
  match op with
  | OpAddMessage clk sid' r txt md =>
      if decide (sid' = sid)
      then [{| role := r; content := txt; timestamp := now_stamp clk;
               msg_metadata := or_empty md |}]
      else []
  | _ => []
  end.

Definition appends_to (sid : string) (ops : list Op) : list Message :=
  ops ≫= appended sid.

(** The operation is [end_conversation] for [sid]. *)
Definition ends (sid : string) (op : Op) : Prop :=
  match op with
  | OpEndConversation _ _ sid' => sid' = sid
  | _ => False
  end.

Global Instance ends_dec sid op : Decision (ends sid op).
Proof. destruct op; simpl; apply _. Defined.

(** [m'] has the messages of [m] for [sid], and no ended conversation for
    it. *)
Definition keeps (sid : string) (m m' : ConversationManager) : Prop :=
  not_ended sid m' ∧ messages_of sid m' = messages_of sid m.

(** ** Concrete clocks and stores *)

(** Clock readings that are all the same instant. *)
Definition clock_at (t : Z) : Clock :=
  {| time_time := t; now_cutoff := t; now_created := t;
     now_stamp := t; now_activity := t; now_stats := t |}.

(** Three calls of [add_message] for the call CA1, among operations for
    CA1 and for another call. *)
Definition demo_ops : list Op :=
  [ OpAddMessage (clock_at 10) "CA1" "user" "Hello" None;
    OpAddMessage (clock_at 15) "CA2" "user" "Good morning" None;
    OpAddMessage (clock_at 20) "CA1" "assistant" "Hi!" (Some {[ "confidence" := VInt 1 ]});
    OpStats (clock_at 25) "CA1";
    OpEndConversation 26 26 "CA2";
    OpSearch (λ _, clock_at 27) (λ _, 0%nat) "hi" 10;
    OpAddMessage (clock_at 30) "CA1" "user" "How are you?" None ].

(** A store with one conversation, which holds the message ["Hello there"]. *)
Definition one_hello_store : ConversationManager :=
  (add_message (clock_at 10) "CA1" "user" "Hello there" None (init 1000 3600 0)).2.

(** Five conversations, each with a message that matches ["hello"]. *)
Definition five_hello_store : ConversationManager :=
  run [OpAddMessage (clock_at 10) "CA1" "user" "Hello" None;
       OpAddMessage (clock_at 11) "CA2" "user" "hello, anyone?" None;
       OpAddMessage (clock_at 12) "CA3" "assistant" "Well, HELLO!" None;
       OpAddMessage (clock_at 13) "CA4" "user" "Oh hello" None;
       OpAddMessage (clock_at 14) "CA5" "user" "hElLo" None] (init 1000 3600 0).

(** Five conversations with a message that matches ["hello"]; the first
    one is ended. *)
Definition first_ended_store : ConversationManager :=
  run [OpAddMessage (clock_at 10) "CA1" "user" "hello" None;
       OpEndConversation 20 20 "CA1";
       OpAddMessage (clock_at 30) "CA2" "user" "hello" None;
       OpAddMessage (clock_at 30) "CA3" "user" "hello" None;
       OpAddMessage (clock_at 30) "CA4" "user" "hello" None;
       OpAddMessage (clock_at 30) "CA5" "user" "hello" None] (init 1000 3600 0).

(** A store with the cap 2: two ended conversations and, inserted after
    them, an active one. *)
Definition crowded_store : ConversationManager :=
  run [OpGetConversation (clock_at 10) "CA1" None None;
       OpGetConversation (clock_at 20) "CA2" None None;
       OpEndConversation 25 25 "CA1";
       OpEndConversation 26 26 "CA2";
       OpGetConversation (clock_at 30) "CA3" None None] (init 2 3600 0).

(** A store with the cap 2 and three conversations, all of them active. *)
Definition three_active_store : ConversationManager :=
  run [OpGetConversation (clock_at 10) "CA1" None None;
       OpGetConversation (clock_at 20) "CA2" None None;
       OpGetConversation (clock_at 30) "CA3" None None] (init 2 3600 0).

(** A store whose only conversation is ended. *)
Definition ended_store : ConversationManager :=
  run [OpAddMessage (clock_at 10) "CA1" "user" "Hello" None;
       OpEndConversation 20 21 "CA1"] (init 1000 3600 0).

(** Operations on [ended_store]: an append, reads and a search for CA1,
    then, one and two hours later, two eviction passes that run and keep
    CA1, with calls of [get_conversation] for CA1 and for a new call. *)
Definition ended_ops : list Op :=
  [ OpAddMessage (clock_at 30) "CA1" "user" "Still there?" None;
    OpGetHistory (clock_at 35) "CA1" 0;
    OpStats (clock_at 40) "CA1";
    OpSearch (λ _, clock_at 50) (λ _, 0%nat) "hello" 5;
    OpExport (clock_at 60) "CA1";
    OpCleanup (hours 1) (hours 1);
    OpGetConversation (clock_at (hours 2)) "CA1" None None;
    OpGetConversation (clock_at (hours 2)) "CA2" None None ].

(** At [hours 100]: an ended conversation that started 25 hours ago, an
    ended one that started 23 hours ago and an active one that started 30
    hours ago. *)
Definition aged_dict : Dict :=
  [ ("CA1", ended (hours 76) (hours 76) (new_conversation "CA1" None None (hours 75) 0));
    ("CA2", ended (hours 78) (hours 78) (new_conversation "CA2" None None (hours 77) 1));
    ("CA3", new_conversation "CA3" None None (hours 70) 2) ].

(** ** How conversation objects change *)

(** [c'] is [c] after some calls of [add_message] and [end_conversation]
    for it. *)
Inductive grown_from (c : Conversation) : Conversation → Prop :=
| grown_refl : grown_from c c
| grown_append c' msg now :
    grown_from c c' → grown_from c (append_to msg now c')
| grown_end c' now_end now_duration :
    grown_from c c' → grown_from c (ended now_end now_duration c').

(** Every conversation of [m'] is a conversation of [m], under the same
    call SID and after some appends and ends, or an object created since
    and then appended to and ended. *)
Definition unfolds (m m' : ConversationManager) : Prop :=
  wf m' ∧ (next_id m ≤ next_id m')%nat ∧
  ∀ e', e' ∈ conversations m' →
    (∃ e, e ∈ conversations m ∧ e.1 = e'.1 ∧ grown_from e.2 e'.2) ∨
    ((next_id m ≤ obj_id e'.2)%nat ∧
     ∃ f t now, grown_from (new_conversation e'.1 f t now (obj_id e'.2)) e'.2).

(** Every conversation of [m'] is a conversation of [m], in the same state,
    or an object created since, without messages. *)
Definition shrinks (m m' : ConversationManager) : Prop :=
  wf m' ∧ (next_id m ≤ next_id m')%nat ∧
  ∀ e', e' ∈ conversations m' →
    e' ∈ conversations m ∨ ((next_id m ≤ obj_id e'.2)%nat ∧ messages e'.2 = []).

(** The metadata keys that the manager maintains agree with the state of
    the conversation: [message_count] and [last_activity] are there once a
    message was appended, and [message_count] is the number of messages;
    [end_time] and [duration] are there once the conversation is ended. *)
Definition metadata_consistent (c : Conversation) : Prop :=
  metadata c !! "message_count" =
    (if decide (messages c = []) then None
     else Some (VInt (Z.of_nat (length (messages c))))) ∧
  (is_Some (metadata c !! "last_activity") ↔ messages c ≠ []) ∧
  (is_Some (metadata c !! "end_time") ↔ is_active c = false) ∧
  (is_Some (metadata c !! "duration") ↔ is_active c = false).

(** ** Search *)

(** [p] occurs in [s]. *)
Definition is_substring (p s : string) : Prop := ∃ a b, s = a +:+ p +:+ b.

(** [txt] is the content of the first of the messages whose content, in
    lower case, contains [q]. *)
Definition first_matching (q : string) (msgs : list Message) (txt : string) : Prop :=
  ∃ before msg after,
    msgs = before ++ msg :: after ∧ content msg = txt ∧
    is_substring q (lower txt) ∧
    Forall (λ x, ¬ is_substring q (lower (content x))) before.

(** The call SID and the matching message of a result. *)
Definition found (r : SearchResult) : string * string :=
  (st_call_sid (sr_stats r), matching_message r).

(** The conversations with a message that matches, in the order of the
    dictionary, each with its first matching message. *)
Definition matching_conversations (q : string) (d : Dict) : list (string * string) :=
  omap (λ e, (λ txt, (e.1, txt)) <$> first_match q (messages e.2)) d.

(** No call of [get_conversation_stats] in a loop finds the eviction pass
    due. *)
Definition throttled (clks : nat → Clock) (m : ConversationManager) : Prop :=
  ∀ i, time_time (clks i) - last_cleanup m < cleanup_interval m * 1000000.

(** ** Rate limits *)

(** The lowest of the three configured limits, each with its default. *)
Definition lowest_limit (rate_limits : gmap string Z) : Z :=
  Z.min (default 10 (rate_limits !! "calls_per_minute"))
    (Z.min (default 100 (rate_limits !! "calls_per_hour"))
           (default 1000 (rate_limits !! "calls_per_day"))).

(** Every two readings of the clock are less than a minute apart. *)
Definition within_a_minute (times : list datetime) : Prop :=
  Forall (λ t, Forall (λ t', t' - t < minutes 1) times) times.

(** * Facts about the store as a dictionary *)

Section dict_facts.
Implicit Types (d : Dict) (k : string) (c : Conversation)
  (e : string * Conversation).

Lemma dict_get_elem k c d : dict_get k d = Some c → (k, c) ∈ d.
Proof.
  induction d as [|[k' c'] d IH]; simpl; [done|].
  destruct (decide (k' = k)) as [->|]; intros H.
  - injection H as ->. apply list_elem_of_here.
  - apply list_elem_of_further; auto.
Qed.

Lemma dict_get_None k d : dict_get k d = None ↔ k ∉ d.*1.
Proof.
  induction d as [|[k' c'] d IH]; simpl.
  - split; [intros _; apply not_elem_of_nil | done].
  - rewrite not_elem_of_cons. destruct (decide (k' = k)) as [->|Hne].
    + split; [done|]. intros [Hk _]. by destruct Hk.
    + rewrite IH. split; [by split|]. by intros [_ Hk].
Qed.

Lemma dict_get_NoDup k c d : NoDup d.*1 → (k, c) ∈ d → dict_get k d = Some c.
Proof.
  induction d as [|[k' c'] d IH]; simpl; intros Hnd Hin.
  - by apply elem_of_nil in Hin.
  - apply NoDup_cons in Hnd as [Hk Hnd].
    apply elem_of_cons in Hin as [Heq|Hin].
    + injection Heq as -> ->. by rewrite decide_True.
    + rewrite decide_False; [auto|]. intros ->. apply Hk.
      by apply (list_elem_of_fmap_2 fst) in Hin.
Qed.

Lemma dict_in_true k d : dict_in k d = true ↔ k ∈ d.*1.
Proof.
  unfold dict_in. destruct (dict_get k d) as [c|] eqn:H.
  - split; [intros _|done].
    apply dict_get_elem in H. by apply (list_elem_of_fmap_2 fst) in H.
  - apply dict_get_None in H. split; [done|]. intros; contradiction.
Qed.

Lemma dict_get_app k d d' :
  dict_get k (d ++ d') =
    match dict_get k d with Some c => Some c | None => dict_get k d' end.
Proof.
  induction d as [|[k' c'] d IH]; simpl; [done|]. by destruct (decide (k' = k)).
Qed.

Lemma dict_get_filter (P : string * Conversation → Prop)
    `{∀ e, Decision (P e)} k c d :
  dict_get k d = Some c → P (k, c) → dict_get k (filter P d) = Some c.
Proof.
  induction d as [|[k' c'] d IH]; [done|].
  rewrite filter_cons. simpl. destruct (decide (k' = k)) as [->|Hne]; intros Hget HP.
  - injection Hget as ->. rewrite decide_True by done. simpl. by rewrite decide_True.
  - destruct (decide (P (k', c'))); simpl; [rewrite decide_False by done|]; auto.
Qed.

Lemma dict_get_filter_None (P : string * Conversation → Prop)
    `{∀ e, Decision (P e)} k d :
  dict_get k d = None → dict_get k (filter P d) = None.
Proof.
  rewrite !dict_get_None. intros Hk Hin. apply Hk.
  apply list_elem_of_fmap in Hin as (e & -> & He).
  apply list_elem_of_filter in He as [_ He]. by apply list_elem_of_fmap_2.
Qed.

Lemma dict_mutate_keys f k d : (dict_mutate f k d).*1 = d.*1.
Proof.
  unfold dict_mutate. rewrite <- list_fmap_compose. apply list_fmap_ext.
  intros i [k' c'] _. simpl. by destruct (decide (k' = k)).
Qed.

Lemma dict_get_mutate f k k' d :
  dict_get k' (dict_mutate f k d) =
    if decide (k = k') then f <$> dict_get k' d else dict_get k' d.
Proof.
  induction d as [|[k1 c1] d IH]; simpl.
  - by destruct (decide (k = k')).
  - rewrite IH. clear IH.
    destruct (decide (k1 = k)) as [->|Hne]; simpl;
      destruct (decide (k = k')) as [->|]; simpl;
      repeat case_decide; congruence.
Qed.

Lemma dict_mutate_length f k d : length (dict_mutate f k d) = length d.
Proof. unfold dict_mutate. apply length_fmap. Qed.

(** Deleting a list of keys one after the other keeps the other entries,
    in their order. *)
Lemma foldl_dict_del (ks : list string) d :
  foldl (λ d' k, dict_del k d') d ks = filter (λ e, e.1 ∉ ks) d.
Proof.
  revert d. induction ks as [|k ks IH]; intros d; simpl.
  - induction d as [|e d IHd]; [done|].
    rewrite filter_cons_True by apply not_elem_of_nil. by rewrite <- IHd.
  - rewrite IH. unfold dict_del. rewrite list_filter_filter.
    apply list_filter_iff. intros e. rewrite not_elem_of_cons. tauto.
Qed.

Lemma dict_del_length k c d :
  NoDup d.*1 → (k, c) ∈ d → S (length (dict_del k d)) = length d.
Proof.
  unfold dict_del. induction d as [|[k' c'] d IH]; simpl; intros Hnd Hin.
  - by apply elem_of_nil in Hin.
  - apply NoDup_cons in Hnd as [Hk Hnd]. rewrite filter_cons. simpl.
    apply elem_of_cons in Hin as [Heq|Hin].
    + injection Heq as -> ->. rewrite decide_False by (intros Hc; by apply Hc).
      f_equal. clear IH. induction d as [|[k2 c2] d IHd]; [done|].
      simpl in *. apply not_elem_of_cons in Hk as [Hk1 Hk2].
      apply NoDup_cons in Hnd as [_ Hnd].
      rewrite filter_cons_True by (simpl; congruence). simpl. f_equal. auto.
    + rewrite decide_True.
      * simpl. f_equal. auto.
      * intros ->. apply Hk. by apply (list_elem_of_fmap_2 fst) in Hin.
Qed.

Lemma filter_keys_NoDup (P : string * Conversation → Prop)
    `{∀ e, Decision (P e)} d :
  NoDup d.*1 → NoDup (filter P d).*1.
Proof.
  induction d as [|e d IH]; simpl; [done|]. intros Hnd.
  apply NoDup_cons in Hnd as [Hk Hnd]. rewrite filter_cons.
  destruct (decide (P e)); [|auto]. simpl. apply NoDup_cons. split; [|auto].
  intros Hin. apply Hk. apply list_elem_of_fmap in Hin as (e' & -> & He').
  apply list_elem_of_filter in He' as [_ He']. by apply list_elem_of_fmap_2.
Qed.

End dict_facts.

(** * The eviction pass *)

Section eviction_facts.
Implicit Types (d s : Dict) (k : string) (c : Conversation)
  (e : string * Conversation).

Lemma filter_on_elements (P Q : string * Conversation → Prop)
    `{!∀ e, Decision (P e), !∀ e, Decision (Q e)} d :
  (∀ e, e ∈ d → P e ↔ Q e) → filter P d = filter Q d.
Proof.
  induction d as [|e d IH]; intros HPQ; [done|].
  rewrite !filter_cons. rewrite IH.
  - destruct (decide (P e)) as [HP|HP], (decide (Q e)) as [HQ|HQ]; try done;
      exfalso; pose proof (HPQ e (list_elem_of_here _ _)); tauto.
  - intros e' He'. apply HPQ. by apply list_elem_of_further.
Qed.

Lemma key_in_filter (P : string * Conversation → Prop)
    `{!∀ e, Decision (P e)} d e :
  NoDup d.*1 → e ∈ d → e.1 ∈ (filter P d).*1 ↔ P e.
Proof.
  intros Hnd He. split.
  - intros Hin. apply list_elem_of_fmap in Hin as (e' & Hk & He').
    apply list_elem_of_filter in He' as [HP He'].
    destruct e as [k c], e' as [k' c']. simpl in Hk. subst k'.
    pose proof (dict_get_NoDup _ _ _ Hnd He) as H1.
    pose proof (dict_get_NoDup _ _ _ Hnd He') as H2. congruence.
  - intros HP. apply list_elem_of_fmap_2. by apply list_elem_of_filter.
Qed.

(** *** The stable sort *)

Lemma insert_by_start_split e s :
  ∃ s1 s2, s = s1 ++ s2 ∧ insert_by_start e s = s1 ++ e :: s2 ∧
           Forall (λ x, start_time x.2 < start_time e.2) s1 ∧
           (∀ x, head s2 = Some x → by_start e x).
Proof.
  induction s as [|x s IH]; simpl.
  - exists [], []. repeat split; [constructor|done].
  - destruct (Z.leb_spec (start_time e.2) (start_time x.2)) as [Hle|Hlt].
    + exists [], (x :: s). repeat split; [constructor|].
      intros y [= <-]. exact Hle.
    + destruct IH as (s1 & s2 & -> & -> & Hall & Hhd).
      exists (x :: s1), s2. repeat split; [by constructor|done].
Qed.

Lemma insert_by_start_perm e s : insert_by_start e s ≡ₚ e :: s.
Proof.
  destruct (insert_by_start_split e s) as (s1 & s2 & -> & -> & _).
  symmetry. apply Permutation_middle.
Qed.

Lemma sorted_by_start_perm d : sorted_by_start d ≡ₚ d.
Proof.
  induction d as [|e d IH]; simpl; [done|].
  rewrite insert_by_start_perm. by rewrite IH.
Qed.

Lemma insert_by_start_sorted e s :
  StronglySorted by_start s → StronglySorted by_start (insert_by_start e s).
Proof.
  induction s as [|x s IH]; simpl; intros Hs.
  - repeat constructor.
  - apply StronglySorted_cons in Hs as [Hx Hs].
    destruct (Z.leb_spec (start_time e.2) (start_time x.2)) as [Hle|Hlt].
    + apply StronglySorted_cons. split.
      * constructor; [done|]. eapply Forall_impl; [exact Hx|].
        intros y Hy. unfold by_start in *. lia.
      * by apply StronglySorted_cons.
    + apply StronglySorted_cons. split; [|auto].
      rewrite insert_by_start_perm. constructor; [|done].
      unfold by_start. lia.
Qed.

Lemma sorted_by_start_sorted d : StronglySorted by_start (sorted_by_start d).
Proof.
  induction d as [|e d IH]; simpl; [constructor|].
  by apply insert_by_start_sorted.
Qed.

(** Conversations that started at the same time keep their insertion
    order: the sort is stable, as Python's [sorted] is. *)
Lemma sorted_by_start_stable (t : datetime) d :
  filter (λ e, start_time e.2 = t) (sorted_by_start d) =
  filter (λ e, start_time e.2 = t) d.
Proof.
  induction d as [|e d IH]; simpl; [done|].
  destruct (insert_by_start_split e (sorted_by_start d))
    as (s1 & s2 & Hs & -> & Hall & _).
  rewrite Hs in IH. rewrite filter_app in *. rewrite !filter_cons.
  destruct (decide (start_time e.2 = t)) as [Ht|Ht]; [|done].
  assert (filter (λ e0, start_time e0.2 = t) s1 = []) as Hs1.
  { clear -Hall Ht. induction Hall as [|x s1 Hx _ IHs]; [done|].
    rewrite filter_cons_False by lia. done. }
  rewrite Hs1 in *. simpl in *. by rewrite IH.
Qed.

(** *** The age-based sweep *)

Lemma age_sweep_filter cutoff d :
  NoDup d.*1 →
  age_sweep cutoff d =
    filter (λ e, ¬ (start_time e.2 < cutoff ∧ is_active e.2 = false)) d.
Proof.
  intros Hnd. unfold age_sweep, old_conversations. rewrite foldl_dict_del.
  apply filter_on_elements. intros e He.
  by rewrite (key_in_filter _ d e Hnd He).
Qed.

End eviction_facts.

Section capacity_facts.
Implicit Types (d s : Dict) (k : string) (c : Conversation)
  (e : string * Conversation).

Lemma dict_del_length_key k d :
  NoDup d.*1 → k ∈ d.*1 → S (length (dict_del k d)) = length d.
Proof.
  intros Hnd Hk. apply list_elem_of_fmap in Hk as ([k' c] & -> & He).
  by apply (dict_del_length _ c).
Qed.

Lemma dict_del_keys k d : (dict_del k d).*1 = filter (λ k', k' ≠ k) d.*1.
Proof.
  unfold dict_del. induction d as [|e d IH]; [done|].
  rewrite fmap_cons, !filter_cons.
  destruct (decide (e.1 ≠ k)); [rewrite fmap_cons|]; by rewrite IH.
Qed.

(** Deleting [n] different keys of the dictionary makes it [n] shorter. *)
Lemma foldl_dict_del_length (ks : list string) d :
  NoDup d.*1 → NoDup ks → (∀ k, k ∈ ks → k ∈ d.*1) →
  (length (foldl (λ d' k, dict_del k d') d ks) + length ks)%nat = length d.
Proof.
  revert d. induction ks as [|k ks IH]; intros d Hnd Hks Hsub; simpl.
  - lia.
  - apply NoDup_cons in Hks as [Hk Hks].
    rewrite <- (dict_del_length_key k d Hnd) by (apply Hsub; left).
    rewrite <- (IH (dict_del k d)); [lia| |done|].
    + by apply filter_keys_NoDup.
    + intros k' Hk'. rewrite dict_del_keys. apply list_elem_of_filter.
      split; [congruence|]. apply Hsub. by right.
Qed.

Lemma filter_keys_nil d : filter (λ e, e.1 ∉ ([] : Dict).*1) d = d.
Proof.
  induction d as [|e d IH]; [done|].
  rewrite filter_cons_True by (simpl; apply not_elem_of_nil). by rewrite IH.
Qed.

(** The capacity loop over the rest [s] of the sorted list. *)
Lemma capacity_loop max_conv (inactive : Dict) s d :
  NoDup d.*1 → NoDup s.*1 → (∀ e, e ∈ s → e ∈ d) →
  foldl (capacity_step max_conv inactive) d s =
    filter (λ e, e.1 ∉ (take (Z.to_nat (dict_len d - max_conv))
                             (filter (λ e, e.1 ∈ inactive.*1) s)).*1) d.
Proof.
  revert d. induction s as [|x s IH]; intros d Hnd Hs Hsub.
  - rewrite filter_nil, take_nil. by rewrite filter_keys_nil.
  - simpl in Hs. apply NoDup_cons in Hs as [Hx Hs].
    assert (x ∈ d) as Hxd by (apply Hsub; left).
    simpl. unfold capacity_step at 2. rewrite filter_cons.
    destruct (dict_in x.1 inactive) eqn:Hin; simpl.
    + apply dict_in_true in Hin. rewrite decide_True by done.
      destruct (Z.gtb_spec (dict_len d) max_conv) as [Hgt|Hle].
      * pose proof (dict_del_length x.1 x.2 d Hnd) as Hlen.
        destruct x as [kx cx]; simpl in *. specialize (Hlen Hxd).
        rewrite IH.
        -- unfold dict_del. rewrite list_filter_filter.
           replace (Z.to_nat (dict_len d - max_conv))
             with (S (Z.to_nat (dict_len (filter (λ e, e.1 ≠ kx) d) - max_conv)))
             by (unfold dict_len in *; unfold dict_del in Hlen; lia).
           simpl. apply list_filter_iff. intros e.
           rewrite not_elem_of_cons. tauto.
        -- by apply filter_keys_NoDup.
        -- done.
        -- intros e He. apply list_elem_of_filter. split.
           ++ intros Heq. apply Hx. rewrite <- Heq.
              by apply (list_elem_of_fmap_2 fst).
           ++ apply Hsub. by right.
      * replace (Z.to_nat (dict_len d - max_conv)) with 0%nat by lia.
        rewrite IH; [|done|done|].
        -- replace (Z.to_nat (dict_len d - max_conv)) with 0%nat by lia. done.
        -- intros e He. apply Hsub. by right.
    + rewrite decide_False.
      * apply IH; [done|done|]. intros e He. apply Hsub. by right.
      * intros Hc. apply dict_in_true in Hc. congruence.
Qed.

(** The capacity-based sweep deletes exactly [capacity_victims]. *)
Lemma capacity_sweep_filter max_conv d :
  NoDup d.*1 →
  capacity_sweep max_conv d =
    filter (λ e, e.1 ∉ (capacity_victims max_conv d).*1) d.
Proof.
  intros Hnd. unfold capacity_sweep, capacity_victims.
  destruct (Z.gtb_spec (dict_len d) max_conv) as [Hgt|Hle].
  - rewrite capacity_loop.
    + assert (filter (λ e, e.1 ∈ (filter (λ e, is_active e.2 = false) d).*1)
                (sorted_by_start d)
              = filter (λ e, is_active e.2 = false) (sorted_by_start d)) as ->; [|done].
      apply filter_on_elements. intros e He.
      apply key_in_filter; [done|]. by rewrite <- (sorted_by_start_perm d).
    + done.
    + by rewrite (sorted_by_start_perm d).
    + intros e. by rewrite (sorted_by_start_perm d).
  - replace (Z.to_nat (dict_len d - max_conv)) with 0%nat by lia.
    rewrite take_0. by rewrite filter_keys_nil.
Qed.

Lemma capacity_victims_spec max_conv d e :
  e ∈ capacity_victims max_conv d → e ∈ d ∧ is_active e.2 = false.
Proof.
  unfold capacity_victims. intros He.
  apply subseteq_take in He.
  apply list_elem_of_filter in He as [Hin He].
  by rewrite (sorted_by_start_perm d) in He.
Qed.

Lemma capacity_victims_NoDup max_conv d :
  NoDup d.*1 → NoDup (capacity_victims max_conv d).*1.
Proof.
  intros Hnd. unfold capacity_victims. rewrite fmap_take.
  eapply sublist_NoDup; [|apply sublist_take].
  apply filter_keys_NoDup. by rewrite (sorted_by_start_perm d).
Qed.

(** Every conversation the capacity loop deletes started no later than
    every inactive conversation it keeps. *)
Lemma capacity_victims_oldest max_conv d r e :
  r ∈ capacity_victims max_conv d →
  e ∈ d → is_active e.2 = false → e ∉ capacity_victims max_conv d →
  by_start r e.
Proof.
  unfold capacity_victims.
  set (l := filter (λ e, is_active e.2 = false) (sorted_by_start d)).
  set (n := Z.to_nat (dict_len d - max_conv)).
  intros Hr He Hina Hne.
  assert (e ∈ l) as Hel.
  { apply list_elem_of_filter. split; [done|]. by rewrite (sorted_by_start_perm d). }
  rewrite <- (take_drop n l) in Hel. apply elem_of_app in Hel as [?|Hel]; [done|].
  assert (StronglySorted by_start l) as Hsorted.
  { subst l. generalize (sorted_by_start_sorted d).
    generalize (sorted_by_start d). intros s Hs.
    induction Hs as [|x s Hs IH Hx]; [constructor|].
    rewrite filter_cons. destruct (decide (is_active x.2 = false)); [|done].
    constructor; [done|]. apply Forall_forall. intros y Hy.
    apply list_elem_of_filter in Hy as [_ Hy].
    rewrite Forall_forall in Hx. by apply Hx. }
  rewrite <- (take_drop n l) in Hsorted.
  by apply (StronglySorted_app_1_elem_of _ _ _ _ _ Hsorted).
Qed.

Lemma capacity_sweep_length max_conv d :
  NoDup d.*1 →
  (length (capacity_sweep max_conv d) + length (capacity_victims max_conv d))%nat
    = length d.
Proof.
  intros Hnd. rewrite capacity_sweep_filter by done.
  rewrite <- foldl_dict_del. rewrite <- (length_fmap fst (capacity_victims _ _)).
  apply foldl_dict_del_length; [done|by apply capacity_victims_NoDup|].
  intros k Hk. apply list_elem_of_fmap in Hk as (e & -> & He).
  apply capacity_victims_spec in He as [He _]. by apply list_elem_of_fmap_2.
Qed.

(** After the sweep the store is within the cap, or only active
    conversations are left. *)
Lemma capacity_sweep_bound max_conv d :
  NoDup d.*1 →
  dict_len (capacity_sweep max_conv d) ≤ max_conv ∨
  (∀ e, e ∈ capacity_sweep max_conv d → is_active e.2 = true).
Proof.
  intros Hnd. pose proof (capacity_sweep_length max_conv d Hnd) as Hlen.
  set (l := filter (λ e, is_active e.2 = false) (sorted_by_start d)).
  set (n := Z.to_nat (dict_len d - max_conv)).
  destruct (decide (n ≤ length l)%nat) as [Hn|Hn].
  - left. unfold capacity_victims in Hlen. fold l n in Hlen.
    rewrite length_take in Hlen. unfold dict_len in *. lia.
  - right. intros e He. rewrite capacity_sweep_filter in He by done.
    apply list_elem_of_filter in He as [Hk He].
    destruct (is_active e.2) eqn:Hact; [done|]. exfalso. apply Hk.
    apply list_elem_of_fmap_2. unfold capacity_victims. fold l n.
    rewrite take_ge by lia. apply list_elem_of_filter. split; [done|].
    by rewrite (sorted_by_start_perm d).
Qed.

End capacity_facts.

(** * The pass as a whole *)

Section pass_facts.
Implicit Types (d : Dict) (k : string) (c : Conversation)
  (e : string * Conversation) (m : ConversationManager).

(** The whole pass deletes a set of call SIDs of inactive conversations. *)
Lemma eviction_pass_keys now max_conv d :
  NoDup d.*1 →
  ∃ ks : list string,
    eviction_pass now max_conv d = filter (λ e, e.1 ∉ ks) d ∧
    ∀ k, k ∈ ks → ∃ c, (k, c) ∈ d ∧ is_active c = false.
Proof.
  intros Hnd. unfold eviction_pass.
  remember (age_sweep (now - hours 24) d) as d1 eqn:Hsweep.
  assert (d1 = filter (λ e, e.1 ∉ old_conversations (now - hours 24) d) d) as Hd1
    by (subst d1; apply foldl_dict_del).
  clear Hsweep.
  assert (NoDup d1.*1) as Hnd1 by (rewrite Hd1; by apply filter_keys_NoDup).
  exists (old_conversations (now - hours 24) d ++ (capacity_victims max_conv d1).*1).
  split.
  - rewrite capacity_sweep_filter by done.
    transitivity (filter (λ e, e.1 ∉ (capacity_victims max_conv d1).*1)
                    (filter (λ e, e.1 ∉ old_conversations (now - hours 24) d) d));
      [by rewrite <- Hd1|].
    rewrite list_filter_filter. apply list_filter_iff. intros e.
    rewrite not_elem_of_app. tauto.
  - intros k Hk. apply elem_of_app in Hk as [Hk|Hk].
    + apply list_elem_of_fmap in Hk as ([k' c] & -> & He).
      apply list_elem_of_filter in He as [[_ Hact] He]. by exists c.
    + apply list_elem_of_fmap in Hk as ([k' c] & -> & He).
      apply capacity_victims_spec in He as [He Hact].
      rewrite Hd1 in He. apply list_elem_of_filter in He as [_ He]. by exists c.
Qed.

Lemma eviction_pass_sublist now max_conv d :
  NoDup d.*1 → eviction_pass now max_conv d `sublist_of` d.
Proof.
  intros Hnd. destruct (eviction_pass_keys now max_conv d Hnd) as (ks & -> & _).
  apply sublist_filter.
Qed.

(** An active conversation survives the pass. *)
Lemma eviction_pass_get_active now max_conv d k c :
  NoDup d.*1 → dict_get k d = Some c → is_active c = true →
  dict_get k (eviction_pass now max_conv d) = Some c.
Proof.
  intros Hnd Hget Hact.
  destruct (eviction_pass_keys now max_conv d Hnd) as (ks & -> & Hks).
  apply dict_get_filter; [done|]. simpl. intros Hk.
  destruct (Hks k Hk) as (c' & Hc' & Hact').
  apply (dict_get_NoDup _ _ _ Hnd) in Hc'. congruence.
Qed.

Lemma eviction_pass_get_None now max_conv d k :
  NoDup d.*1 → dict_get k d = None →
  dict_get k (eviction_pass now max_conv d) = None.
Proof.
  intros Hnd Hget.
  destruct (eviction_pass_keys now max_conv d Hnd) as (ks & -> & _).
  by apply dict_get_filter_None.
Qed.

Lemma sublist_wf d m :
  wf m → d `sublist_of` conversations m → wf (set_conversations d m).
Proof.
  intros (Hk & Hi & Hall) Hsub. repeat split; simpl.
  - eapply sublist_NoDup; [exact Hk|]. by apply fmap_sublist.
  - eapply sublist_NoDup; [exact Hi|]. by apply fmap_sublist.
  - rewrite Forall_forall in *. intros e He. apply Hall.
    by apply (elem_of_sublist d).
Qed.

End pass_facts.

(** * The invariant and the growth of the store *)

Section manager_facts.
Implicit Types (d : Dict) (k sid : string) (c : Conversation)
  (e : string * Conversation) (m : ConversationManager).

Lemma init_wf max_conv interval t : wf (init max_conv interval t).
Proof. repeat split; simpl; constructor. Qed.

Lemma cleanup_cases t now m :
  _cleanup_old_conversations t now m = m ∨
  _cleanup_old_conversations t now m =
    set_last_cleanup t
      (set_conversations (eviction_pass now (max_conversations m) (conversations m)) m).
Proof. unfold _cleanup_old_conversations. case_match; auto. Qed.

Lemma cleanup_next_id t now m : next_id (_cleanup_old_conversations t now m) = next_id m.
Proof. by destruct (cleanup_cases t now m) as [->| ->]. Qed.

Lemma cleanup_max_conversations t now m :
  max_conversations (_cleanup_old_conversations t now m) = max_conversations m.
Proof. by destruct (cleanup_cases t now m) as [->| ->]. Qed.

Lemma cleanup_sublist t now m :
  wf m → conversations (_cleanup_old_conversations t now m) `sublist_of` conversations m.
Proof.
  intros (Hk & _). destruct (cleanup_cases t now m) as [->| ->]; simpl; [done|].
  by apply eviction_pass_sublist.
Qed.

Lemma cleanup_wf t now m : wf m → wf (_cleanup_old_conversations t now m).
Proof.
  intros Hwf. pose proof (cleanup_sublist t now m Hwf) as Hsub.
  pose proof (sublist_wf _ m Hwf Hsub) as Hwf'.
  destruct (cleanup_cases t now m) as [Heq|Heq]; rewrite Heq in *; done.
Qed.

Lemma cleanup_get_active t now m k c :
  wf m → dict_get k (conversations m) = Some c → is_active c = true →
  dict_get k (conversations (_cleanup_old_conversations t now m)) = Some c.
Proof.
  intros (Hk & _) Hget Hact. destruct (cleanup_cases t now m) as [->| ->]; simpl; [done|].
  by apply eviction_pass_get_active.
Qed.

Lemma cleanup_get_None t now m k :
  wf m → dict_get k (conversations m) = None →
  dict_get k (conversations (_cleanup_old_conversations t now m)) = None.
Proof.
  intros (Hk & _) Hget. destruct (cleanup_cases t now m) as [->| ->]; simpl; [done|].
  by apply eviction_pass_get_None.
Qed.

Lemma grows_refl m : wf m → grows m m.
Proof.
  intros Hwf. split; [done|]. split; [done|]. intros e' He'. left. by exists e'.
Qed.

Lemma grows_trans m1 m2 m3 : grows m1 m2 → grows m2 m3 → grows m1 m3.
Proof.
  intros (Hwf2 & Hn12 & H12) (Hwf3 & Hn23 & H23).
  split; [done|]. split; [lia|]. intros e3 He3.
  destruct (H23 e3 He3) as [(e2 & He2 & Hid & Hact)|[Hnew Hact]].
  - destruct (H12 e2 He2) as [(e1 & He1 & Hid1 & Hact1)|[Hnew Hact1]].
    + left. exists e1. split; [done|]. split; congruence.
    + right. split; [lia|congruence].
  - right. split; [lia|done].
Qed.

Lemma sublist_grows d m :
  wf m → d `sublist_of` conversations m → grows m (set_conversations d m).
Proof.
  intros Hwf Hsub. split; [by apply sublist_wf|]. split; [done|].
  intros e' He'. left. exists e'. split; [|done]. by apply (elem_of_sublist d).
Qed.

Lemma cleanup_grows t now m : wf m → grows m (_cleanup_old_conversations t now m).
Proof.
  intros Hwf. pose proof (cleanup_sublist t now m Hwf) as Hsub.
  pose proof (sublist_grows _ m Hwf Hsub) as Hg.
  destruct (cleanup_cases t now m) as [Heq|Heq]; rewrite Heq in *; [by apply grows_refl|].
  destruct Hg as (Hwf' & Hn & Hg). split; [|split]; done.
Qed.

End manager_facts.

Section get_conversation_facts.
Implicit Types (d : Dict) (k sid : string) (c : Conversation)
  (e : string * Conversation) (m : ConversationManager).

(** The two branches of [get_conversation], after its eviction pass. *)
Lemma get_conversation_cases clk sid f t m :
  let m1 := _cleanup_old_conversations (time_time clk) (now_cutoff clk) m in
  (dict_get sid (conversations m1) = None ∧
   get_conversation clk sid f t m =
     (new_conversation sid f t (now_created clk) (next_id m1),
      {| conversations :=
           dict_add sid (new_conversation sid f t (now_created clk) (next_id m1))
             (conversations m1);
         max_conversations := max_conversations m1;
         cleanup_interval := cleanup_interval m1;
         last_cleanup := last_cleanup m1;
         next_id := S (next_id m1) |})) ∨
  (∃ c, dict_get sid (conversations m1) = Some c ∧
        get_conversation clk sid f t m = (c, m1)).
Proof.
  intros m1. unfold get_conversation. fold m1.
  destruct (dict_get sid (conversations m1)) as [c|] eqn:Hget; [right|left]; eauto.
Qed.

(** The returned conversation is the one stored under the call SID. *)
Lemma get_conversation_stored clk sid f t m :
  dict_get sid (conversations (get_conversation clk sid f t m).2)
    = Some (get_conversation clk sid f t m).1.
Proof.
  destruct (get_conversation_cases clk sid f t m) as [[Hget ->]|(c & Hget & ->)];
    simpl; [|done].
  unfold dict_add. rewrite dict_get_app, Hget. simpl. by rewrite decide_True.
Qed.

Lemma get_conversation_grows clk sid f t m :
  wf m → grows m (get_conversation clk sid f t m).2.
Proof.
  intros Hwf.
  pose proof (cleanup_grows (time_time clk) (now_cutoff clk) m Hwf) as Hg.
  destruct (get_conversation_cases clk sid f t m) as [[Hget ->]|(c & Hget & ->)];
    simpl; [|done].
  eapply grows_trans; [exact Hg|].
  destruct Hg as ((Hk & Hi & Hall) & _).
  set (m1 := _cleanup_old_conversations (time_time clk) (now_cutoff clk) m) in *.
  split; [|split]; simpl.
  - unfold dict_add. repeat split; simpl.
    + rewrite fmap_app. apply NoDup_app. split; [done|]. split.
      * intros k Hk1 Hk2. apply list_elem_of_singleton in Hk2 as ->.
        by apply dict_get_None in Hget.
      * apply NoDup_singleton.
    + rewrite fmap_app. apply NoDup_app. split; [done|]. split.
      * intros i Hi1 Hi2. apply list_elem_of_singleton in Hi2 as ->.
        apply list_elem_of_fmap in Hi1 as (e & Heq & He).
        rewrite Forall_forall in Hall. destruct (Hall e He) as [Hlt _].
        simpl in Heq. lia.
      * apply NoDup_singleton.
    + apply Forall_app. split.
      * eapply Forall_impl; [exact Hall|]. intros e [Hlt Hsid]. split; [lia|done].
      * constructor; [|constructor]. simpl. split; [lia|done].
  - lia.
  - intros e' He'. unfold dict_add in He'. apply elem_of_app in He' as [He'|He'].
    + left. by exists e'.
    + apply list_elem_of_singleton in He' as ->. right. simpl. split; [lia|done].
Qed.

Lemma get_conversation_wf clk sid f t m :
  wf m → wf (get_conversation clk sid f t m).2.
Proof. intros Hwf. by destruct (get_conversation_grows clk sid f t m Hwf). Qed.

(** For a call SID without an ended conversation, [get_conversation]
    returns an active conversation with the messages stored so far. *)
Lemma get_conversation_not_ended clk sid f t m :
  wf m → not_ended sid m →
  is_active (get_conversation clk sid f t m).1 = true ∧
  messages (get_conversation clk sid f t m).1 = messages_of sid m.
Proof.
  intros Hwf Hlive. unfold not_ended, messages_of in *.
  destruct (dict_get sid (conversations m)) as [c|] eqn:Hget.
  - pose proof (cleanup_get_active (time_time clk) (now_cutoff clk) m sid c
                  Hwf Hget Hlive) as Hget1.
    destruct (get_conversation_cases clk sid f t m) as [[Hget' ->]|(c' & Hget' & ->)];
      simpl in *; [congruence|].
    assert (c' = c) as -> by congruence. done.
  - pose proof (cleanup_get_None (time_time clk) (now_cutoff clk) m sid Hwf Hget)
      as Hget1.
    destruct (get_conversation_cases clk sid f t m) as [[Hget' ->]|(c' & Hget' & ->)];
      simpl in *; [done|congruence].
Qed.

Lemma mutate_grows (f : Conversation → Conversation) sid m :
  (∀ c, obj_id (f c) = obj_id c ∧ call_sid (f c) = call_sid c ∧
        is_active (f c) = is_active c) →
  wf m → grows m (set_conversations (dict_mutate f sid (conversations m)) m).
Proof.
  intros Hf (Hk & Hi & Hall). split; [|split]; simpl; [|done|].
  - repeat split; simpl.
    + by rewrite dict_mutate_keys.
    + assert (obj_id ∘ snd <$> dict_mutate f sid (conversations m)
              = obj_id ∘ snd <$> conversations m) as ->; [|done].
      unfold dict_mutate. rewrite <- list_fmap_compose. apply list_fmap_ext.
      intros i [k c] _. simpl. destruct (decide (k = sid)); simpl; [|done].
      by destruct (Hf c).
    + unfold dict_mutate. apply Forall_fmap. eapply Forall_impl; [exact Hall|].
      intros [k c] [Hlt Hsid]. simpl in *. destruct (decide (k = sid)); simpl; [|done].
      destruct (Hf c) as (-> & -> & _). done.
  - intros e' He'. left. unfold dict_mutate in He'.
    apply list_elem_of_fmap in He' as ([k c] & -> & He). exists (k, c).
    split; [done|]. simpl. destruct (decide (k = sid)); simpl; [|done].
    destruct (Hf c) as (-> & _ & ->). done.
Qed.

Lemma add_message_state clk sid r txt md m :
  (add_message clk sid r txt md m).2 =
    set_conversations
      (dict_mutate
         (append_to {| role := r; content := txt; timestamp := now_stamp clk;
                       msg_metadata := or_empty md |} (now_activity clk))
         sid (conversations (get_conversation clk sid None None m).2))
      (get_conversation clk sid None None m).2.
Proof.
  unfold add_message. by destruct (get_conversation clk sid None None m).
Qed.

Lemma add_message_ok clk sid r txt md m : (add_message clk sid r txt md m).1 = true.
Proof.
  unfold add_message. by destruct (get_conversation clk sid None None m).
Qed.

Lemma add_message_grows clk sid r txt md m :
  wf m → grows m (add_message clk sid r txt md m).2.
Proof.
  intros Hwf. rewrite add_message_state.
  eapply grows_trans; [by apply get_conversation_grows|].
  apply mutate_grows; [done|]. by apply get_conversation_wf.
Qed.

(** The stored conversation after [add_message]. *)
Lemma add_message_stored clk sid r txt md m :
  dict_get sid (conversations (add_message clk sid r txt md m).2) =
    Some (append_to {| role := r; content := txt; timestamp := now_stamp clk;
                       msg_metadata := or_empty md |} (now_activity clk)
            (get_conversation clk sid None None m).1).
Proof.
  rewrite add_message_state. simpl. rewrite dict_get_mutate.
  rewrite decide_True by done. by rewrite get_conversation_stored.
Qed.

Lemma add_message_appends clk sid r txt md m :
  wf m → not_ended sid m →
  messages_of sid (add_message clk sid r txt md m).2 =
    messages_of sid m ++
      [{| role := r; content := txt; timestamp := now_stamp clk;
          msg_metadata := or_empty md |}] ∧
  not_ended sid (add_message clk sid r txt md m).2.
Proof.
  intros Hwf Hlive.
  destruct (get_conversation_not_ended clk sid None None m Hwf Hlive) as [Hact Hmsgs].
  unfold messages_of at 1, not_ended. rewrite add_message_stored. simpl.
  by rewrite Hmsgs.
Qed.

Lemma get_history_state clk sid limit m :
  (get_history clk sid limit m).2 = (get_conversation clk sid None None m).2.
Proof. unfold get_history. by destruct (get_conversation clk sid None None m). Qed.

Lemma get_history_result clk sid limit m :
  (get_history clk sid limit m).1 =
    history_entry <$>
      (if limit >? 0
       then slice_last limit (messages (get_conversation clk sid None None m).1)
       else messages (get_conversation clk sid None None m).1).
Proof. unfold get_history. by destruct (get_conversation clk sid None None m). Qed.

End get_conversation_facts.

(** * Reading the history *)

(** C2, as the specification has it, fails: [get_history] for a call SID
    that the store does not know leaves a new conversation in the store. *)
Lemma get_history_mutates_store :
  conversations (get_history (clock_at 5) "CA1" 10 (init 1000 3600 0)).2
    ≠ conversations (init 1000 3600 0).
Proof. vm_compute. discriminate. Qed.

(** C2, amended.  [get_history] changes the store exactly as
    [get_conversation] for the same call SID does.  It hands out the empty
    history for a call SID without conversation and then the store holds a
    new, empty, active conversation for it, after the conversations that
    the eviction pass has left.  Every conversation in the store afterwards
    is one of the store before, in the same state, or that new one.  When
    the call SID has a conversation and the eviction pass is not due, the
    store is as before. *)
Theorem get_history_store_effect clk sid limit m :
  wf m →
  let m' := (get_history clk sid limit m).2 in
  let fresh := new_conversation sid None None (now_created clk) (next_id m) in
  m' = (get_conversation clk sid None None m).2 ∧
  (dict_get sid (conversations m) = None →
     (get_history clk sid limit m).1 = [] ∧
     conversations m' =
       conversations (_cleanup_old_conversations (time_time clk) (now_cutoff clk) m)
         ++ [(sid, fresh)]) ∧
  (∀ e, e ∈ conversations m' → e ∈ conversations m ∨ e = (sid, fresh)) ∧
  (dict_in sid (conversations m) = true →
   time_time clk - last_cleanup m < cleanup_interval m * 1000000 →
   m' = m).
Proof.
  intros Hwf m' fresh. subst m'. rewrite get_history_state.
  pose proof (cleanup_sublist (time_time clk) (now_cutoff clk) m Hwf) as Hsub.
  pose proof (cleanup_next_id (time_time clk) (now_cutoff clk) m) as Hid.
  split; [done|]. split; [|split].
  - intros Habsent. rewrite get_history_result.
    pose proof (cleanup_get_None (time_time clk) (now_cutoff clk) m sid Hwf Habsent)
      as Hnone.
    destruct (get_conversation_cases clk sid None None m)
      as [[Hget ->]|(c & Hget & ->)]; simpl in *; [|congruence].
    split; [by destruct (limit >? 0)|]. unfold dict_add, fresh. by rewrite Hid.
  - intros e He.
    destruct (get_conversation_cases clk sid None None m)
      as [[Hget Heq]|(c & Hget & Heq)]; rewrite Heq in He; simpl in He.
    + unfold dict_add in He. apply elem_of_app in He as [He|He].
      * left. by apply (elem_of_sublist _ _ _ He).
      * right. apply list_elem_of_singleton in He as ->. unfold fresh. by rewrite Hid.
    + left. by apply (elem_of_sublist _ _ _ He).
  - intros Hin Hthrottle. unfold get_conversation, _cleanup_old_conversations.
    destruct (Z.ltb_spec (time_time clk - last_cleanup m)
                (cleanup_interval m * 1000000)) as [_|?]; [|lia].
    unfold dict_in in Hin. by destruct (dict_get sid (conversations m)).
Qed.

(** * Ending a conversation *)

Lemma end_conversation_present now_end now_duration sid m c :
  dict_get sid (conversations m) = Some c →
  (end_conversation now_end now_duration sid m).1 = true ∧
  dict_get sid (conversations (end_conversation now_end now_duration sid m).2)
    = Some (ended now_end now_duration c) ∧
  ∀ k, k ≠ sid →
    dict_get k (conversations (end_conversation now_end now_duration sid m).2)
      = dict_get k (conversations m).
Proof.
  intros Hget. unfold end_conversation, dict_in. rewrite Hget. simpl.
  split; [done|]. split.
  - by rewrite dict_get_mutate, decide_True, Hget.
  - intros k Hk. rewrite dict_get_mutate. by rewrite decide_False.
Qed.

Lemma ended_metadata now_end now_duration c :
  metadata (ended now_end now_duration c) !! "end_time" = Some (VIso now_end) ∧
  metadata (ended now_end now_duration c) !! "duration"
    = Some (total_seconds (now_duration - start_time c)) ∧
  ∀ key, key ≠ "end_time" → key ≠ "duration" →
         metadata (ended now_end now_duration c) !! key = metadata c !! key.
Proof.
  simpl. split; [|split].
  - rewrite lookup_insert_ne by done. by rewrite lookup_insert_eq.
  - by rewrite lookup_insert_eq.
  - intros key H1 H2. by rewrite !lookup_insert_ne.
Qed.

(** C4.  For a call SID in the store [end_conversation] returns [True];
    the conversation is then inactive, its metadata holds the ISO text of
    the time of the call under [end_time] and, under [duration], the seconds
    from its start time to the time of the call; its other fields and the
    other conversations are as before.  For a call SID that is not in the
    store it returns [False] and the manager is unchanged. *)
Theorem end_conversation_spec now_end now_duration sid m :
  match dict_get sid (conversations m) with
  | Some c =>
      (end_conversation now_end now_duration sid m).1 = true ∧
      ∃ c', dict_get sid (conversations (end_conversation now_end now_duration sid m).2)
              = Some c' ∧
            is_active c' = false ∧
            metadata c' !! "end_time" = Some (VIso now_end) ∧
            metadata c' !! "duration" = Some (total_seconds (now_duration - start_time c)) ∧
            (∀ key, key ≠ "end_time" → key ≠ "duration" →
                    metadata c' !! key = metadata c !! key) ∧
            start_time c' = start_time c ∧ messages c' = messages c ∧
            call_sid c' = call_sid c ∧ obj_id c' = obj_id c ∧
            (∀ k, k ≠ sid →
               dict_get k (conversations (end_conversation now_end now_duration sid m).2)
                 = dict_get k (conversations m))
  | None => end_conversation now_end now_duration sid m = (false, m)
  end.
Proof.
  destruct (dict_get sid (conversations m)) as [c|] eqn:Hget.
  - destruct (end_conversation_present now_end now_duration sid m c Hget)
      as (Hok & Hstored & Hothers).
    destruct (ended_metadata now_end now_duration c) as (Hend & Hdur & Hkeys).
    split; [done|]. exists (ended now_end now_duration c). by repeat split.
  - unfold end_conversation, dict_in. by rewrite Hget.
Qed.

(** C9.  For a call SID whose conversation is already ended,
    [end_conversation] returns [True] again; the conversation stays
    inactive, and [end_time] and [duration] in its metadata are replaced by
    the values of the later call, whatever they were. *)
Theorem end_conversation_again now_end now_duration sid m c :
  dict_get sid (conversations m) = Some c → is_active c = false →
  (end_conversation now_end now_duration sid m).1 = true ∧
  ∃ c', dict_get sid (conversations (end_conversation now_end now_duration sid m).2)
          = Some c' ∧
        is_active c' = false ∧
        metadata c' !! "end_time" = Some (VIso now_end) ∧
        metadata c' !! "duration" = Some (total_seconds (now_duration - start_time c)).
Proof.
  intros Hget _.
  destruct (end_conversation_present now_end now_duration sid m c Hget)
    as (Hok & Hstored & _).
  destruct (ended_metadata now_end now_duration c) as (Hend & Hdur & _).
  split; [done|]. by exists (ended now_end now_duration c).
Qed.

(** * Statistics *)

Lemma stats_result clk sid m :
  let c := (get_conversation clk sid None None m).1 in
  (get_conversation_stats clk sid m).2 = (get_conversation clk sid None None m).2 ∧
  st_is_active (get_conversation_stats clk sid m).1 = is_active c ∧
  total_messages (get_conversation_stats clk sid m).1
    = Z.of_nat (length (messages c)) ∧
  user_messages (get_conversation_stats clk sid m).1
    = Z.of_nat (length (with_role "user" (messages c))) ∧
  assistant_messages (get_conversation_stats clk sid m).1
    = Z.of_nat (length (with_role "assistant" (messages c))).
Proof.
  unfold get_conversation_stats. by destruct (get_conversation clk sid None None m).
Qed.

Lemma with_role_le (msgs : list Message) :
  (length (with_role "user" msgs) + length (with_role "assistant" msgs)
   ≤ length msgs)%nat.
Proof.
  unfold with_role. induction msgs as [|x msgs IH]; [done|].
  rewrite !filter_cons. simpl.
  destruct (decide (role x = "user")) as [Hu|Hu],
           (decide (role x = "assistant")) as [Ha|Ha]; simpl; try lia.
  rewrite Hu in Ha. discriminate.
Qed.

Lemma with_role_lt (msgs : list Message) :
  (∃ x, x ∈ msgs ∧ role x ≠ "user" ∧ role x ≠ "assistant") →
  (length (with_role "user" msgs) + length (with_role "assistant" msgs)
   < length msgs)%nat.
Proof.
  intros (x & Hx & Hu & Ha). induction msgs as [|y msgs IH].
  - by apply elem_of_nil in Hx.
  - apply elem_of_cons in Hx as [<-|Hx].
    + pose proof (with_role_le msgs). unfold with_role in *.
      rewrite !filter_cons_False by done. simpl. lia.
    + specialize (IH Hx). pose proof (with_role_le [y]) as Hy.
      unfold with_role in *. rewrite !filter_cons in *. simpl in *.
      destruct (decide (role y = "user")), (decide (role y = "assistant"));
        simpl in *; lia.
Qed.

(** The conversation that a call for [sid] reads is the one stored for
    [sid], unless that one is inactive and the eviction pass of the call
    removes it: then it is a new one, without messages. *)
Lemma get_conversation_reads clk sid f t m c1 :
  wf m → dict_get sid (conversations m) = Some c1 →
  (get_conversation clk sid f t m).1 = c1 ∨
  (is_active c1 = false ∧ messages (get_conversation clk sid f t m).1 = []).
Proof.
  intros Hwf Hget. pose proof Hwf as (Hk & _).
  pose proof (cleanup_sublist (time_time clk) (now_cutoff clk) m Hwf) as Hsub.
  destruct (get_conversation_cases clk sid f t m) as [[Hget' ->]|(c & Hget' & ->)];
    simpl.
  - right. split; [|done]. destruct (is_active c1) eqn:Hact; [|done].
    rewrite (cleanup_get_active _ _ m sid c1 Hwf Hget Hact) in Hget'. done.
  - left. apply dict_get_elem in Hget'. apply (elem_of_sublist _ _ _ Hget') in Hsub.
    apply (dict_get_NoDup _ _ _ Hk) in Hsub. congruence.
Qed.

(** C10.  [add_message] takes any role: it returns [True] and the message,
    with that role, is the last one of the conversation stored for the call
    SID.  The statistics count all messages of the conversation they read
    in [total_messages], those whose role equals ["user"] in
    [user_messages] and those whose role equals ["assistant"] in
    [assistant_messages]; so when this conversation holds a message with
    another role, the two counts add up to less than [total_messages].
    The conversation that the statistics read is the one stored for the
    call SID, with the appended message, unless that one is inactive and
    the eviction pass of the statistics call removes it: then it is a new
    one without messages, and all counts are 0.  For a call SID without an
    ended conversation it holds the messages there were and the appended
    one. *)
Theorem stats_counts_by_role clk sid r txt md clk' m :
  let msg := {| role := r; content := txt; timestamp := now_stamp clk;
                msg_metadata := or_empty md |} in
  let m1 := (add_message clk sid r txt md m).2 in
  let st := (get_conversation_stats clk' sid m1).1 in
  let c := (get_conversation clk' sid None None m1).1 in
  (add_message clk sid r txt md m).1 = true ∧
  (∃ c1, dict_get sid (conversations m1) = Some c1 ∧
         messages c1 = messages (get_conversation clk sid None None m).1 ++ [msg] ∧
         (wf m → c = c1 ∨ (is_active c1 = false ∧ messages c = []))) ∧
  total_messages st = Z.of_nat (length (messages c)) ∧
  user_messages st =
    Z.of_nat (length (filter (λ x, role x = "user") (messages c))) ∧
  assistant_messages st =
    Z.of_nat (length (filter (λ x, role x = "assistant") (messages c))) ∧
  ((∃ x, x ∈ messages c ∧ role x ≠ "user" ∧ role x ≠ "assistant") →
   user_messages st + assistant_messages st < total_messages st) ∧
  (wf m → not_ended sid m → messages c = messages_of sid m ++ [msg]).
Proof.
  intros msg m1 st c.
  destruct (stats_result clk' sid m1) as (_ & _ & Htotal & Huser & Hassistant).
  fold st c in Htotal, Huser, Hassistant.
  split; [apply add_message_ok|]. split; [|split; [done|split; [done|split; [done|split]]]].
  - eexists. split; [apply add_message_stored|]. split; [done|].
    intros Hwf. destruct (add_message_grows clk sid r txt md m Hwf) as [Hwf1 _].
    apply get_conversation_reads; [done|apply add_message_stored].
  - intros Hother. apply with_role_lt in Hother. lia.
  - intros Hwf Hlive.
    destruct (add_message_appends clk sid r txt md m Hwf Hlive) as [Hmsgs Hlive1].
    destruct (add_message_grows clk sid r txt md m Hwf) as [Hwf1 _].
    fold m1 in Hmsgs, Hlive1, Hwf1.
    destruct (get_conversation_not_ended clk' sid None None m1 Hwf1 Hlive1)
      as [_ Hread].
    fold c in Hread. by rewrite Hread.
Qed.

(** * Eviction *)

Lemma elem_of_keys_NoDup (d d' : Dict) e :
  NoDup d.*1 → d' ⊆ d → e ∈ d → e.1 ∈ d'.*1 → e ∈ d'.
Proof.
  intros Hnd Hsub He Hk. apply list_elem_of_fmap in Hk as (e' & Hk & He').
  assert (e' = e) as <-; [|done].
  destruct e as [k c], e' as [k' c']. simpl in Hk. subst k'.
  pose proof (dict_get_NoDup _ _ _ Hnd He) as H1.
  pose proof (dict_get_NoDup _ _ _ Hnd (Hsub _ He')) as H2. congruence.
Qed.

(** C6.  The age-based sweep keeps, in their order, exactly the
    conversations that are active or did not start before [now - 24 h]:
    it removes every inactive conversation that started more than 24 hours
    before [now] and no other.  So an inactive conversation that started 25
    hours ago is removed, and with it gone from the store after the whole
    pass; one that started 23 hours ago is retained by the sweep, and by the
    whole pass when the sweep leaves the store within its cap. *)
Theorem age_sweep_removes_old now max_conv (d : Dict) :
  NoDup d.*1 →
  let swept := age_sweep (now - hours 24) d in
  swept = filter (λ e, is_active e.2 = true ∨ now - hours 24 ≤ start_time e.2) d ∧
  (∀ e, e ∈ d → is_active e.2 = false → start_time e.2 < now - hours 24 →
        (e ∉ swept) ∧ dict_get e.1 (eviction_pass now max_conv d) = None) ∧
  (∀ e, e ∈ d → is_active e.2 = true ∨ now - hours 24 ≤ start_time e.2 →
        e ∈ swept ∧ (dict_len swept ≤ max_conv → e ∈ eviction_pass now max_conv d)) ∧
  (∀ e, e ∈ d → is_active e.2 = false → start_time e.2 = now - hours 25 →
        e ∉ swept) ∧
  (∀ e, e ∈ d → start_time e.2 = now - hours 23 → e ∈ swept).
Proof.
  intros Hnd swept.
  assert (swept = filter (λ e, is_active e.2 = true ∨ now - hours 24 ≤ start_time e.2) d)
    as Hswept.
  { unfold swept. rewrite age_sweep_filter by done. apply list_filter_iff.
    intros e. split.
    - intros Hn. destruct (is_active e.2) eqn:Hact; [by left|]. right.
      destruct (Z.le_gt_cases (now - hours 24) (start_time e.2)); [done|].
      exfalso. apply Hn. split; [lia|done].
    - intros [Hact|Hle] [Hlt Hin]; [congruence|lia]. }
  assert (∀ e, e ∈ d → is_active e.2 = false → start_time e.2 < now - hours 24 →
               e ∉ swept) as Hgone.
  { intros e He Hact Hold. rewrite Hswept. intros Hin.
    apply list_elem_of_filter in Hin as [[?|?] _]; [congruence|lia]. }
  assert (∀ e, e ∈ d → is_active e.2 = true ∨ now - hours 24 ≤ start_time e.2 →
               e ∈ swept) as Hkept.
  { intros e He Hcond. rewrite Hswept. by apply list_elem_of_filter. }
  split; [done|]. split; [|split; [|split]].
  - intros e He Hact Hold. split; [by apply Hgone|].
    apply dict_get_None. unfold eviction_pass. fold swept. intros Hk.
    assert (NoDup swept.*1) as Hnds by (rewrite Hswept; by apply filter_keys_NoDup).
    rewrite capacity_sweep_filter in Hk by done.
    apply (Hgone e He Hact Hold). apply (elem_of_keys_NoDup d); [done| |done|].
    + rewrite Hswept. intros x Hx. by apply list_elem_of_filter in Hx as [_ Hx].
    + apply list_elem_of_fmap in Hk as (e' & -> & He').
      apply list_elem_of_filter in He' as [_ He']. by apply list_elem_of_fmap_2.
  - intros e He Hcond. split; [by apply Hkept|]. intros Hcap.
    unfold eviction_pass. fold swept. unfold capacity_sweep.
    destruct (Z.gtb_spec (dict_len swept) max_conv) as [?|_]; [lia|]. by apply Hkept.
  - intros e He Hact Hstart. apply Hgone; [done|done|]. unfold hours in *. lia.
  - intros e He Hstart. apply Hkept; [done|]. right. unfold hours in *. lia.
Qed.

Lemma capacity_sweep_removed max_conv (d : Dict) r :
  NoDup d.*1 → r ∈ d → r ∉ capacity_sweep max_conv d →
  r ∈ capacity_victims max_conv d.
Proof.
  intros Hnd Hr Hout. rewrite capacity_sweep_filter in Hout by done.
  destruct (decide (r.1 ∈ (capacity_victims max_conv d).*1)) as [Hk|Hk].
  - apply (elem_of_keys_NoDup d); [done| |done|done].
    intros x Hx. by apply capacity_victims_spec in Hx as [Hx _].
  - exfalso. apply Hout. by apply list_elem_of_filter.
Qed.

Lemma capacity_sweep_kept max_conv (d : Dict) e :
  NoDup d.*1 → e ∈ capacity_sweep max_conv d →
  e ∈ d ∧ e ∉ capacity_victims max_conv d.
Proof.
  intros Hnd He. rewrite capacity_sweep_filter in He by done.
  apply list_elem_of_filter in He as [Hk He]. split; [done|].
  intros Hv. apply Hk. by apply list_elem_of_fmap_2.
Qed.

Lemma capacity_sweep_min max_conv (d : Dict) :
  NoDup d.*1 → Z.min (dict_len d) max_conv ≤ dict_len (capacity_sweep max_conv d).
Proof.
  intros Hnd. pose proof (capacity_sweep_length max_conv d Hnd) as Hlen.
  unfold capacity_victims in Hlen. rewrite length_take in Hlen.
  unfold dict_len in *. lia.
Qed.

(** C3.  No eviction pass, throttled or not, removes an active
    conversation, and the conversations it keeps stay in their order.  When
    the pass runs, the capacity-based sweep removes the first inactive
    conversations of the list sorted by [start_time], as many as the store
    is above the cap: every conversation that it removes is inactive and
    started no later than every inactive conversation that stays (removal
    in ascending [start_time] order); the sweep stops as soon as the store
    is within the cap, and afterwards the store is within the cap or holds
    active conversations only. *)
Theorem eviction_respects_activity t now m :
  wf m →
  let d := conversations m in
  let d' := conversations (_cleanup_old_conversations t now m) in
  let swept := age_sweep (now - hours 24) d in
  (∀ e, e ∈ d → is_active e.2 = true → e ∈ d') ∧
  d' `sublist_of` d ∧
  (cleanup_interval m * 1000000 ≤ t - last_cleanup m →
     d' = filter (λ e, e.1 ∉ (capacity_victims (max_conversations m) swept).*1) swept ∧
     (∀ r, r ∈ swept → r ∉ d' →
           is_active r.2 = false ∧
           ∀ e, e ∈ d' → is_active e.2 = false → start_time r.2 ≤ start_time e.2) ∧
     Z.min (dict_len swept) (max_conversations m) ≤ dict_len d' ∧
     (dict_len d' ≤ max_conversations m ∨ ∀ e, e ∈ d' → is_active e.2 = true)).
Proof.
  intros Hwf d d' swept. pose proof Hwf as (Hnd & _).
  split; [|split].
  - intros [k c] He Hact. apply dict_get_elem.
    apply cleanup_get_active; [done| |done]. by apply dict_get_NoDup.
  - by apply cleanup_sublist.
  - intros Hdue.
    assert (d' = capacity_sweep (max_conversations m) swept) as Hd'.
    { unfold d', _cleanup_old_conversations.
      destruct (Z.ltb_spec (t - last_cleanup m) (cleanup_interval m * 1000000));
        [lia|done]. }
    assert (NoDup swept.*1) as Hnds.
    { unfold swept, age_sweep. rewrite foldl_dict_del. by apply filter_keys_NoDup. }
    split; [rewrite Hd'; by apply capacity_sweep_filter|]. rewrite Hd'.
    split; [|split].
    + intros r Hr Hout.
      pose proof (capacity_sweep_removed _ _ _ Hnds Hr Hout) as Hv.
      split; [by apply capacity_victims_spec in Hv as [_ ?]|].
      intros e He Hact. apply capacity_sweep_kept in He as [He Hnv]; [|done].
      by apply (capacity_victims_oldest (max_conversations m) swept r e).
    + by apply capacity_sweep_min.
    + by apply capacity_sweep_bound.
Qed.

Lemma sublist_filter_length {A} (P : A → Prop) `{!∀ x, Decision (P x)} (l1 l2 : list A) :
  l1 `sublist_of` l2 → Forall P l1 → (length l1 ≤ length (filter P l2))%nat.
Proof.
  intros Hsub. induction Hsub as [|x l1 l2 Hsub IH|x l1 l2 Hsub IH]; intros Hall.
  - done.
  - apply Forall_cons in Hall as [Hx Hall]. rewrite filter_cons_True by done.
    simpl. specialize (IH Hall). lia.
  - specialize (IH Hall). rewrite filter_cons. destruct (decide (P x)); simpl; lia.
Qed.

(** C8, as the specification has it, fails: three conversations that are
    all active stay in a store with [max_conversations = 2] when the
    eviction pass runs after the third insert. *)
Lemma eviction_pass_exceeds_cap :
  last_cleanup (_cleanup_old_conversations 3600000040 40 three_active_store)
    = 3600000040 ∧
  ¬ dict_len (conversations (_cleanup_old_conversations 3600000040 40 three_active_store))
      ≤ max_conversations (_cleanup_old_conversations 3600000040 40 three_active_store).
Proof. vm_compute. split; [done|]. intros H. by apply H. Qed.

(** C8, amended.  After an eviction pass that is not throttled the store
    is within [max_conversations] or holds active conversations only; its
    size is at most the larger of [max_conversations] and the number of
    active conversations. *)
Theorem eviction_pass_size_bound t now m :
  wf m → cleanup_interval m * 1000000 ≤ t - last_cleanup m →
  let d' := conversations (_cleanup_old_conversations t now m) in
  (dict_len d' ≤ max_conversations m ∨ ∀ e, e ∈ d' → is_active e.2 = true) ∧
  dict_len d' ≤
    Z.max (max_conversations m)
          (dict_len (filter (λ e, is_active e.2 = true) (conversations m))).
Proof.
  intros Hwf Hdue d'. pose proof Hwf as (Hnd & _).
  pose proof (cleanup_sublist t now m Hwf) as Hsub. fold d' in Hsub.
  assert (dict_len d' ≤ max_conversations m ∨ ∀ e, e ∈ d' → is_active e.2 = true)
    as Hbound.
  { unfold d', _cleanup_old_conversations.
    destruct (Z.ltb_spec (t - last_cleanup m) (cleanup_interval m * 1000000));
      [lia|]. simpl. apply capacity_sweep_bound.
    unfold age_sweep. rewrite foldl_dict_del. by apply filter_keys_NoDup. }
  split; [done|]. destruct Hbound as [Hle|Hact]; [lia|].
  assert (length d' ≤ length (filter (λ e, is_active e.2 = true) (conversations m)))%nat.
  { apply sublist_filter_length; [done|]. by apply Forall_forall. }
  unfold dict_len. lia.
Qed.

(** * Activity is monotonic *)

Lemma grows_advances m m' : grows m m' → advances m m'.
Proof.
  intros (Hwf & Hn & H). split; [done|]. split; [done|]. intros e' He'.
  destruct (H e' He') as [(e & He & Hid & Hact)|?]; [left|by right].
  exists e. split; [done|]. split; [done|]. congruence.
Qed.

Lemma get_conversation_stats_grows clk sid m :
  wf m → grows m (get_conversation_stats clk sid m).2.
Proof.
  intros Hwf. destruct (stats_result clk sid m) as [-> _].
  by apply get_conversation_grows.
Qed.

Lemma all_conversations_loop_grows clks i l m :
  wf m → grows m (all_conversations_loop clks i l m).2.
Proof.
  revert i m. induction l as [|e l IH]; intros i m Hwf; simpl.
  - by apply grows_refl.
  - pose proof (get_conversation_stats_grows (clks i) (call_sid e.2) m Hwf) as Hg.
    destruct (get_conversation_stats (clks i) (call_sid e.2) m) as [stats m1].
    simpl in Hg. pose proof (IH (S i) m1 (proj1 Hg)) as Hg'.
    destruct (all_conversations_loop clks (S i) l m1) as [summaries m2].
    simpl in *. by eapply grows_trans.
Qed.

(** What holds between the managers before and after each call of
    [get_conversation_stats] holds between the managers before and after
    the loop of the search. *)
Section search_loop_steps.
Variable P : ConversationManager → Prop.
Variable R : ConversationManager → ConversationManager → Prop.
Hypothesis R_refl : ∀ m, P m → R m m.
Hypothesis R_trans : ∀ m1 m2 m3, R m1 m2 → R m2 m3 → R m1 m3.
Hypothesis R_stats : ∀ clk sid m,
  P m → P (get_conversation_stats clk sid m).2 ∧ R m (get_conversation_stats clk sid m).2.

Lemma search_loop_steps q limit clks shift used len (ahead : Dict) results m :
  P m → R m (search_loop q limit clks shift used len ahead results m).2.
Proof.
  revert ahead results m.
  induction len as [|len IH]; intros ahead results m Hm; simpl.
  - destruct (negb _); [by apply R_refl|]. destruct ahead; by apply R_refl.
  - destruct (negb _); [by apply R_refl|].
    destruct ahead as [|e ahead]; [by apply R_refl|].
    destruct (first_match q (messages e.2)) as [txt|].
    + destruct (R_stats (clks (length results)) (call_sid e.2) m Hm) as [Hm1 Hr].
      destruct (get_conversation_stats _ _ m) as [stats m1]. simpl in Hm1, Hr.
      destruct (_ >=? limit); [done|].
      eapply R_trans; [exact Hr|]. by apply IH.
    + destruct (_ >=? limit); [by apply R_refl|]. by apply IH.
Qed.

Lemma search_conversations_steps clks shift query limit m :
  P m → R m (search_conversations clks shift query limit m).2.
Proof.
  intros Hm. unfold search_conversations.
  pose proof (search_loop_steps (lower query) limit clks shift
                (length (conversations m)) (length (conversations m))
                (conversations m) [] m Hm) as Hr.
  by destruct (search_loop _ _ _ _ _ _ _ _ _) as [[results|] m'].
Qed.

End search_loop_steps.

Lemma search_conversations_grows clks shift query limit m :
  wf m → grows m (search_conversations clks shift query limit m).2.
Proof.
  apply (search_conversations_steps wf grows grows_refl grows_trans).
  intros clk sid m0 Hwf. pose proof (get_conversation_stats_grows clk sid m0 Hwf) as Hg.
  split; [by destruct Hg|done].
Qed.

Lemma end_conversation_advances now_end now_duration sid m :
  wf m → advances m (end_conversation now_end now_duration sid m).2.
Proof.
  intros Hwf. unfold end_conversation.
  destruct (dict_in sid (conversations m)); simpl;
    [|by apply grows_advances, grows_refl].
  destruct Hwf as (Hk & Hi & Hall). split; [|split]; simpl; [|done|].
  - repeat split; simpl.
    + by rewrite dict_mutate_keys.
    + assert (obj_id ∘ snd <$> dict_mutate (ended now_end now_duration) sid
                                  (conversations m)
              = obj_id ∘ snd <$> conversations m) as ->; [|done].
      unfold dict_mutate. rewrite <- list_fmap_compose. apply list_fmap_ext.
      intros i [k c] _. simpl. by destruct (decide (k = sid)).
    + unfold dict_mutate. apply Forall_fmap. eapply Forall_impl; [exact Hall|].
      intros [k c] [Hlt Hsid]. simpl in *. by destruct (decide (k = sid)).
  - intros e' He'. left. unfold dict_mutate in He'.
    apply list_elem_of_fmap in He' as ([k c] & -> & He). exists (k, c).
    split; [done|]. simpl. by destruct (decide (k = sid)).
Qed.

Lemma step_advances op m : wf m → advances m (step op m).
Proof.
  intros Hwf. destruct op; simpl.
  - by apply grows_advances, get_conversation_grows.
  - by apply grows_advances, add_message_grows.
  - rewrite get_history_state. by apply grows_advances, get_conversation_grows.
  - by apply end_conversation_advances.
  - by apply grows_advances, get_conversation_stats_grows.
  - by apply grows_advances, all_conversations_loop_grows.
  - by apply grows_advances, search_conversations_grows.
  - unfold export_conversation.
    pose proof (get_conversation_grows clk sid None None m Hwf) as Hg.
    destruct (get_conversation clk sid None None m). by apply grows_advances.
  - by apply grows_advances, cleanup_grows.
Qed.

Lemma evolves_step m1 m2 m3 : wf m1 → evolves m1 m2 → advances m2 m3 → evolves m1 m3.
Proof.
  intros Hwf1 (Hwf2 & Hn12 & H12) (Hwf3 & Hn23 & H23).
  split; [done|]. split; [lia|]. intros e3 He3.
  destruct (H23 e3 He3) as [(e2 & He2 & Hid & Hact)|[Hnew _]]; [|right; lia].
  destruct (H12 e2 He2) as [(e1 & He1 & Hid1 & Hact1)|Hnew]; [left|right; lia].
  exists e1. split; [done|]. split; [congruence|auto].
Qed.

Lemma run_evolves ops m : wf m → evolves m (run ops m).
Proof.
  intros Hwf. unfold run. induction ops as [|op ops IH] using rev_ind; simpl.
  - split; [done|]. split; [done|]. intros e' He'. left. by exists e'.
  - rewrite foldl_app. simpl. eapply evolves_step; [done|exact IH|].
    apply step_advances. by destruct IH.
Qed.

(** Every manager that the operations produce from a fresh one satisfies
    the invariant. *)
Lemma run_wf ops m : wf m → wf (run ops m).
Proof. intros Hwf. by destruct (run_evolves ops m Hwf). Qed.

(** ** What the operations do to a conversation object *)

Section unfolds_facts.
Implicit Types (d : Dict) (k sid : string) (c : Conversation)
  (e : string * Conversation) (m : ConversationManager).

Lemma grown_from_trans c1 c2 c3 :
  grown_from c1 c2 → grown_from c2 c3 → grown_from c1 c3.
Proof.
  intros H12 H23. induction H23 as [|c3 msg now _ IH|c3 t1 t2 _ IH];
    [done|by constructor..].
Qed.

(** Appends and ends keep the identity, the call SID, the caller numbers
    and the start time; they keep the messages there are, in their order,
    and never make a conversation active. *)
Lemma grown_from_fields c c' :
  grown_from c c' →
  obj_id c' = obj_id c ∧ call_sid c' = call_sid c ∧
  from_number c' = from_number c ∧ to_number c' = to_number c ∧
  start_time c' = start_time c ∧
  messages c `prefix_of` messages c' ∧
  (is_active c = false → is_active c' = false).
Proof.
  induction 1 as [|c' msg now _ IH|c' t1 t2 _ IH]; simpl.
  - by repeat split.
  - destruct IH as (? & ? & ? & ? & ? & ? & ?). repeat split; try done.
    by apply prefix_app_r.
  - destruct IH as (? & ? & ? & ? & ? & ? & ?). by repeat split.
Qed.

Lemma grown_from_consistent c c' :
  grown_from c c' → metadata_consistent c → metadata_consistent c'.
Proof.
  induction 1 as [|c' msg now _ IH|c' t1 t2 _ IH]; [done|..]; intros Hc;
    destruct (IH Hc) as (Hcount & Hlast & Hend & Hdur); clear IH;
    unfold metadata_consistent; simpl.
  - split; [|split; [|split]].
    + rewrite lookup_insert_eq. rewrite decide_False; [done|].
      by destruct (messages c').
    + rewrite lookup_insert_ne by done. rewrite lookup_insert_eq.
      split; [intros _; by destruct (messages c')|eauto].
    + by rewrite !lookup_insert_ne.
    + by rewrite !lookup_insert_ne.
  - split; [|split; [|split]].
    + by rewrite !lookup_insert_ne.
    + by rewrite !lookup_insert_ne.
    + rewrite lookup_insert_ne by done. rewrite lookup_insert_eq. split; eauto.
    + rewrite lookup_insert_eq. split; eauto.
Qed.

Lemma new_conversation_consistent sid f t now id :
  metadata_consistent (new_conversation sid f t now id).
Proof.
  unfold metadata_consistent. simpl. rewrite !lookup_empty.
  split; [done|]. split; [|split]; split; intros H;
    try done; try (by destruct H).
Qed.

Lemma unfolds_refl m : wf m → unfolds m m.
Proof.
  intros Hwf. split; [done|]. split; [done|]. intros e' He'. left.
  exists e'. split; [done|]. split; [done|constructor].
Qed.

Lemma unfolds_trans m1 m2 m3 : unfolds m1 m2 → unfolds m2 m3 → unfolds m1 m3.
Proof.
  intros (_ & Hn12 & H12) (Hwf3 & Hn23 & H23).
  split; [done|]. split; [lia|]. intros e3 He3.
  destruct (H23 e3 He3) as [(e2 & He2 & Hk & Hg)|[Hnew Hg]].
  - destruct (H12 e2 He2) as [(e1 & He1 & Hk1 & Hg1)|[Hnew (f & t & now & Hg1)]].
    + left. exists e1. split; [done|]. split; [congruence|].
      by eapply grown_from_trans.
    + right. destruct (grown_from_fields _ _ Hg) as (Hid & _).
      rewrite Hid, <- Hk. split; [done|]. exists f, t, now.
      by eapply grown_from_trans.
  - right. split; [lia|done].
Qed.

Lemma grows_unfolds m m' :
  grows m m' → conversations m' `sublist_of` conversations m → unfolds m m'.
Proof.
  intros (Hwf & Hn & _) Hsub. split; [done|]. split; [done|]. intros e' He'.
  left. exists e'. split; [by apply (elem_of_sublist _ _ _ He')|].
  split; [done|constructor].
Qed.

Lemma cleanup_unfolds t now m : wf m → unfolds m (_cleanup_old_conversations t now m).
Proof.
  intros Hwf. apply grows_unfolds; [by apply cleanup_grows|by apply cleanup_sublist].
Qed.

Lemma get_conversation_unfolds clk sid f t m :
  wf m → unfolds m (get_conversation clk sid f t m).2.
Proof.
  intros Hwf.
  pose proof (cleanup_unfolds (time_time clk) (now_cutoff clk) m Hwf) as Hu.
  pose proof (get_conversation_grows clk sid f t m Hwf) as (Hwf' & Hn & _).
  destruct (get_conversation_cases clk sid f t m) as [[Hget Heq]|(c & Hget & ->)];
    [|done].
  rewrite Heq in *. eapply unfolds_trans; [exact Hu|].
  split; [done|]. split; [simpl; lia|]. simpl. intros e' He'.
  unfold dict_add in He'. apply elem_of_app in He' as [He'|He'].
  - left. exists e'. split; [done|]. split; [done|constructor].
  - apply list_elem_of_singleton in He' as ->. right. simpl. split; [done|].
    exists f, t, (now_created clk). constructor.
Qed.

Lemma mutate_unfolds (f : Conversation → Conversation) sid m :
  (∀ c, grown_from c (f c)) →
  wf (set_conversations (dict_mutate f sid (conversations m)) m) →
  unfolds m (set_conversations (dict_mutate f sid (conversations m)) m).
Proof.
  intros Hf Hwf. split; [done|]. split; [done|]. simpl. intros e' He'.
  unfold dict_mutate in He'. apply list_elem_of_fmap in He' as ([k c] & -> & He).
  left. exists (k, c). split; [done|]. simpl.
  destruct (decide (k = sid)); simpl; split; try done; constructor.
Qed.

Lemma add_message_unfolds clk sid r txt md m :
  wf m → unfolds m (add_message clk sid r txt md m).2.
Proof.
  intros Hwf. pose proof (add_message_grows clk sid r txt md m Hwf) as (Hwf' & _).
  rewrite add_message_state in *.
  eapply unfolds_trans; [by apply get_conversation_unfolds|].
  apply mutate_unfolds; [|done]. intros c. repeat constructor.
Qed.

Lemma end_conversation_unfolds now_end now_duration sid m :
  wf m → unfolds m (end_conversation now_end now_duration sid m).2.
Proof.
  intros Hwf.
  pose proof (end_conversation_advances now_end now_duration sid m Hwf) as (Hwf' & _).
  unfold end_conversation in *.
  destruct (dict_in sid (conversations m)); simpl in *; [|by apply unfolds_refl].
  apply mutate_unfolds; [|done]. intros c. repeat constructor.
Qed.

Lemma get_conversation_stats_unfolds clk sid m :
  wf m → unfolds m (get_conversation_stats clk sid m).2.
Proof.
  intros Hwf. destruct (stats_result clk sid m) as [-> _].
  by apply get_conversation_unfolds.
Qed.

Lemma all_conversations_loop_unfolds clks i l m :
  wf m → unfolds m (all_conversations_loop clks i l m).2.
Proof.
  revert i m. induction l as [|e l IH]; intros i m Hwf; simpl.
  - by apply unfolds_refl.
  - pose proof (get_conversation_stats_unfolds (clks i) (call_sid e.2) m Hwf) as Hu.
    destruct (get_conversation_stats (clks i) (call_sid e.2) m) as [stats m1].
    simpl in Hu. pose proof (IH (S i) m1 (proj1 Hu)) as Hu'.
    destruct (all_conversations_loop clks (S i) l m1) as [summaries m2].
    simpl in *. by eapply unfolds_trans.
Qed.

Lemma search_conversations_unfolds clks shift query limit m :
  wf m → unfolds m (search_conversations clks shift query limit m).2.
Proof.
  apply (search_conversations_steps wf unfolds unfolds_refl unfolds_trans).
  intros clk sid m0 Hwf. pose proof (get_conversation_stats_unfolds clk sid m0 Hwf) as Hu.
  split; [by destruct Hu|done].
Qed.

Lemma step_unfolds op m : wf m → unfolds m (step op m).
Proof.
  intros Hwf. destruct op; simpl.
  - by apply get_conversation_unfolds.
  - by apply add_message_unfolds.
  - rewrite get_history_state. by apply get_conversation_unfolds.
  - by apply end_conversation_unfolds.
  - by apply get_conversation_stats_unfolds.
  - by apply all_conversations_loop_unfolds.
  - by apply search_conversations_unfolds.
  - unfold export_conversation.
    pose proof (get_conversation_unfolds clk sid None None m Hwf) as Hu.
    by destruct (get_conversation clk sid None None m).
  - by apply cleanup_unfolds.
Qed.

Lemma run_unfolds ops m : wf m → unfolds m (run ops m).
Proof.
  intros Hwf. unfold run. induction ops as [|op ops IH] using rev_ind; simpl.
  - by apply unfolds_refl.
  - rewrite foldl_app. simpl. eapply unfolds_trans; [exact IH|].
    apply step_unfolds. by destruct IH.
Qed.

End unfolds_facts.

(** C5.  A conversation is active when it is created: after any operation,
    every conversation object that did not exist before it is active.  And
    a conversation object that is inactive stays inactive through every
    sequence of operations ([get_conversation], [add_message],
    [get_history], [end_conversation], [get_conversation_stats],
    [get_all_conversations], [search_conversations], [export_conversation],
    the eviction pass) as long as the store holds it.  When the store later
    holds an active conversation under the call SID of an inactive one,
    this is another conversation object, made by [get_conversation] after
    the eviction pass had removed the inactive one. *)
Theorem is_active_monotonic ops m :
  wf m →
  (∀ op e', e' ∈ conversations (step op m) → (next_id m ≤ obj_id e'.2)%nat →
            is_active e'.2 = true) ∧
  (∀ e e', e ∈ conversations m → is_active e.2 = false →
           e' ∈ conversations (run ops m) → obj_id e'.2 = obj_id e.2 →
           is_active e'.2 = false) ∧
  (∀ e e', e ∈ conversations m → is_active e.2 = false →
           e' ∈ conversations (run ops m) → e'.1 = e.1 → is_active e'.2 = true →
           (next_id m ≤ obj_id e'.2)%nat ∧ obj_id e'.2 ≠ obj_id e.2).
Proof.
  intros Hwf. pose proof Hwf as (Hk & Hi & Hall). rewrite Forall_forall in Hall.
  split; [|split].
  - intros op e' He' Hnew. destruct (step_advances op m Hwf) as (_ & _ & H).
    destruct (H e' He') as [(e & He & Hid & _)|[_ Hact]]; [|done].
    destruct (Hall e He) as [Hlt _]. lia.
  - intros e e' He Hact He' Hid. destruct (run_evolves ops m Hwf) as (_ & _ & H).
    destruct (H e' He') as [(e0 & He0 & Hid0 & Hmono)|Hnew].
    + assert (e0 = e) as ->; [|auto].
      apply list_elem_of_lookup in He0 as [i Hi0]. apply list_elem_of_lookup in He as [j Hj].
      assert (i = j) as ->; [|congruence].
      apply (NoDup_lookup _ i j (obj_id e.2) Hi); rewrite list_lookup_fmap.
      * rewrite Hi0. simpl. congruence.
      * by rewrite Hj.
    + destruct (Hall e He) as [Hlt _]. lia.
  - intros e e' He Hact He' Hsid Hact'.
    destruct (run_unfolds ops m Hwf) as (_ & _ & H).
    destruct (H e' He') as [(e0 & He0 & Hk0 & Hg)|[Hnew _]].
    + assert (e0 = e) as ->.
      { destruct e0 as [k0 c0], e as [k c]. simpl in *.
        pose proof (dict_get_NoDup _ _ _ Hk He0) as H0.
        pose proof (dict_get_NoDup _ _ _ Hk He) as H1. congruence. }
      destruct (grown_from_fields _ _ Hg) as (_ & _ & _ & _ & _ & _ & Hmono).
      rewrite (Hmono Hact) in Hact'. done.
    + split; [done|]. destruct (Hall e He) as [Hlt _]. lia.
Qed.

(** An ended conversation that the eviction pass has removed does not come
    back: [get_conversation] for its call SID makes another object. *)
Example evicted_sid_gets_new_object :
  let m1 := run [OpGetConversation (clock_at 10) "CA1" None None;
                 OpEndConversation 20 20 "CA1"] (init 1000 3600 0) in
  let m2 := run [OpGetConversation (clock_at (hours 25)) "CA1" None None] m1 in
  (λ e, (e.1, obj_id e.2, is_active e.2)) <$> conversations m1 = [("CA1", 0%nat, false)] ∧
  (λ e, (e.1, obj_id e.2, is_active e.2)) <$> conversations m2 = [("CA1", 1%nat, true)].
Proof. by vm_compute. Qed.

(** * Append ordering *)

Section keeps_facts.
Implicit Types (d : Dict) (k sid : string) (c : Conversation)
  (e : string * Conversation) (m : ConversationManager).

Lemma keeps_refl sid m : not_ended sid m → keeps sid m m.
Proof. by split. Qed.

Lemma keeps_trans sid m1 m2 m3 : keeps sid m1 m2 → keeps sid m2 m3 → keeps sid m1 m3.
Proof. intros [_ H12] [Hlive H23]. split; [done|congruence]. Qed.

Lemma cleanup_keeps t now sid m :
  wf m → not_ended sid m → keeps sid m (_cleanup_old_conversations t now m).
Proof.
  intros Hwf Hlive. unfold keeps, not_ended, messages_of in *.
  destruct (dict_get sid (conversations m)) as [c|] eqn:Hget.
  - by rewrite (cleanup_get_active t now m sid c Hwf Hget Hlive).
  - by rewrite (cleanup_get_None t now m sid Hwf Hget).
Qed.

Lemma get_conversation_keeps clk sid' f t sid m :
  wf m → not_ended sid m → keeps sid m (get_conversation clk sid' f t m).2.
Proof.
  intros Hwf Hlive.
  pose proof (cleanup_keeps (time_time clk) (now_cutoff clk) sid m Hwf Hlive) as Hk.
  destruct (get_conversation_cases clk sid' f t m) as [[Hget ->]|(c & Hget & ->)];
    simpl; [|done].
  eapply keeps_trans; [exact Hk|]. destruct Hk as [Hlive1 _]. clear Hlive.
  unfold keeps, not_ended, messages_of, dict_add in *. simpl.
  rewrite dict_get_app. simpl.
  destruct (dict_get sid (conversations _)) as [c|] eqn:Hsid; [done|].
  destruct (decide (sid' = sid)) as [->|]; done.
Qed.

Lemma mutate_other_keeps (f : Conversation → Conversation) sid' sid m :
  sid' ≠ sid → not_ended sid m →
  keeps sid m (set_conversations (dict_mutate f sid' (conversations m)) m).
Proof.
  intros Hne Hlive. unfold keeps, not_ended, messages_of in *. simpl.
  by rewrite dict_get_mutate, decide_False.
Qed.

Lemma get_conversation_stats_keeps clk sid' sid m :
  wf m → not_ended sid m → keeps sid m (get_conversation_stats clk sid' m).2.
Proof.
  intros Hwf Hlive. destruct (stats_result clk sid' m) as [-> _].
  by apply get_conversation_keeps.
Qed.

Lemma all_conversations_loop_keeps clks i l sid m :
  wf m → not_ended sid m → keeps sid m (all_conversations_loop clks i l m).2.
Proof.
  revert i m. induction l as [|e l IH]; intros i m Hwf Hlive; simpl.
  - by apply keeps_refl.
  - pose proof (get_conversation_stats_keeps (clks i) (call_sid e.2) sid m Hwf Hlive)
      as Hk.
    pose proof (get_conversation_stats_grows (clks i) (call_sid e.2) m Hwf) as [Hwf1 _].
    destruct (get_conversation_stats (clks i) (call_sid e.2) m) as [stats m1].
    simpl in *. pose proof (IH (S i) m1 Hwf1 (proj1 Hk)) as Hk'.
    destruct (all_conversations_loop clks (S i) l m1) as [summaries m2].
    simpl in *. by eapply keeps_trans.
Qed.

Lemma search_conversations_keeps clks shift query limit sid m :
  wf m → not_ended sid m → keeps sid m (search_conversations clks shift query limit m).2.
Proof.
  intros Hwf Hlive.
  apply (search_conversations_steps (λ m0, wf m0 ∧ not_ended sid m0) (keeps sid));
    [by intros m0 [_ ?]; apply keeps_refl|apply keeps_trans| |done].
  intros clk sid' m0 [Hwf0 Hlive0].
  pose proof (get_conversation_stats_keeps clk sid' sid m0 Hwf0 Hlive0) as Hk.
  pose proof (get_conversation_stats_grows clk sid' m0 Hwf0) as [Hwf1 _].
  split; [split; [done|by destruct Hk]|done].
Qed.

(** An operation other than [end_conversation] for [sid] leaves the
    messages of [sid] as they are, but for the message it appends. *)
Lemma step_appends sid op m :
  wf m → not_ended sid m → ¬ ends sid op →
  not_ended sid (step op m) ∧
  messages_of sid (step op m) = messages_of sid m ++ appended sid op.
Proof.
  intros Hwf Hlive Hend.
  assert (∀ m', keeps sid m m' →
            not_ended sid m' ∧ messages_of sid m' = messages_of sid m ++ []) as Hkeeps.
  { intros m' [? ->]. by rewrite app_nil_r. }
  destruct op; simpl in Hend |- *.
  - by apply Hkeeps, get_conversation_keeps.
  - destruct (decide (sid0 = sid)) as [->|Hne].
    + by destruct (add_message_appends clk sid r txt md m Hwf Hlive) as [-> ?].
    + apply Hkeeps. rewrite add_message_state.
      eapply keeps_trans; [by apply get_conversation_keeps|].
      apply mutate_other_keeps; [done|].
      by destruct (get_conversation_keeps clk sid0 None None sid m Hwf Hlive).
  - apply Hkeeps. rewrite get_history_state. by apply get_conversation_keeps.
  - apply Hkeeps. unfold end_conversation.
    destruct (dict_in sid0 (conversations m)); simpl; [|by apply keeps_refl].
    by apply mutate_other_keeps.
  - by apply Hkeeps, get_conversation_stats_keeps.
  - by apply Hkeeps, all_conversations_loop_keeps.
  - by apply Hkeeps, search_conversations_keeps.
  - apply Hkeeps. unfold export_conversation.
    pose proof (get_conversation_keeps clk sid0 None None sid m Hwf Hlive) as Hk.
    by destruct (get_conversation clk sid0 None None m).
  - by apply Hkeeps, cleanup_keeps.
Qed.

End keeps_facts.

Lemma slice_last_suffix {A} (n : Z) (l : list A) :
  0 < n < Z.of_nat (length l) →
  ∃ older recent, l = older ++ recent ∧ Z.of_nat (length recent) = n ∧
                  slice_last n l = recent.
Proof.
  intros Hn. unfold slice_last.
  exists (take (length l - Z.to_nat n) l), (drop (length l - Z.to_nat n) l).
  split; [by rewrite take_drop|]. split; [|done]. rewrite length_drop. lia.
Qed.

Lemma run_appends sid ops m :
  wf m → not_ended sid m → Forall (λ op, ¬ ends sid op) ops →
  not_ended sid (run ops m) ∧
  messages_of sid (run ops m) = messages_of sid m ++ appends_to sid ops.
Proof.
  revert m. induction ops as [|op ops IH]; intros m Hwf Hlive Hops.
  - simpl. by rewrite app_nil_r.
  - apply Forall_cons in Hops as [Hop Hops].
    destruct (step_appends sid op m Hwf Hlive Hop) as [Hlive1 Hmsgs1].
    destruct (step_advances op m Hwf) as [Hwf1 _].
    destruct (IH (step op m) Hwf1 Hlive1 Hops) as [Hlive2 Hmsgs2].
    unfold run in *. simpl. split; [done|].
    rewrite Hmsgs2, Hmsgs1, <- app_assoc. done.
Qed.

(** C1, as the specification has it, fails.  The store holds an ended
    conversation without messages for CA1.  Two calls of [add_message] for
    CA1 follow each other and both return [True]; the eviction pass of the
    second one, 25 hours later, removes the ended conversation with the
    first message, and the second message goes to a new conversation. *)
Lemma append_after_end_loses_history :
  let m0 := run [OpGetConversation (clock_at 10) "CA1" None None;
                 OpEndConversation 20 20 "CA1"] (init 1000 3600 0) in
  let first := add_message (clock_at 30) "CA1" "user" "first" None m0 in
  let second := add_message (clock_at (hours 25)) "CA1" "user" "second" None first.2 in
  messages_of "CA1" m0 = [] ∧ first.1 = true ∧ second.1 = true ∧
  h_content <$> (get_history (clock_at (hours 25)) "CA1" 0 second.2).1 = ["second"].
Proof. by vm_compute. Qed.

(** C1, amended.  Take a store in which [sid] has no ended conversation, and
    any sequence of operations in which [sid] is not ended: calls of
    [add_message] for [sid], and between them any operations for other
    calls, reads for [sid] and eviction passes, whatever the clock reads.
    Every call of [add_message] returns [True], and afterwards
    [get_history] for [sid] returns: with limit 0 the views of the messages
    that were stored for [sid] followed by the messages appended for
    [sid], oldest first, which are exactly the appended ones when [sid] had
    no conversation; with a limit [k] between 0 and their number the views
    of the last [k] of them, oldest first; with any limit [<= 0] the entire
    history. *)
Theorem get_history_append_order sid (ops : list Op) m :
  wf m → not_ended sid m →
  Forall (λ op, ¬ ends sid op) ops →
  let m' := run ops m in
  let stored := messages_of sid m ++ appends_to sid ops in
  (∀ clk sid' r txt md m0, (add_message clk sid' r txt md m0).1 = true) ∧
  (dict_get sid (conversations m) = None → stored = appends_to sid ops) ∧
  (∀ clk, (get_history clk sid 0 m').1 = history_entry <$> stored) ∧
  (∀ clk k, 0 < k < Z.of_nat (length stored) →
     ∃ older recent, stored = older ++ recent ∧ Z.of_nat (length recent) = k ∧
       (get_history clk sid k m').1 = history_entry <$> recent) ∧
  (∀ clk limit, limit ≤ 0 → (get_history clk sid limit m').1 = history_entry <$> stored).
Proof.
  intros Hwf Hlive Hops m' stored.
  destruct (run_appends sid ops m Hwf Hlive Hops) as [Hlive' Hmsgs].
  pose proof (run_wf ops m Hwf) as Hwf'.
  fold m' in Hwf', Hlive', Hmsgs. fold stored in Hmsgs.
  assert (∀ clk limit, (get_history clk sid limit m').1 =
            history_entry <$>
              (if limit >? 0 then slice_last limit stored else stored)) as Hhist.
  { intros clk limit. rewrite get_history_result.
    destruct (get_conversation_not_ended clk sid None None m' Hwf' Hlive') as [_ ->].
    by rewrite Hmsgs. }
  split; [intros; apply add_message_ok|]. split; [|split; [|split]].
  - intros Habsent. unfold stored, messages_of. by rewrite Habsent.
  - intros clk. by rewrite Hhist.
  - intros clk k Hk. rewrite Hhist.
    destruct (Z.gtb_spec k 0) as [_|?]; [|lia].
    destruct (slice_last_suffix k stored Hk) as (older & recent & Happ & Hlen & ->).
    by exists older, recent.
  - intros clk limit Hlimit. rewrite Hhist.
    destruct (Z.gtb_spec limit 0) as [?|_]; [lia|done].
Qed.

(** * Search *)

Lemma search_loop_length q limit clks shift used len (ahead : Dict) results m out m' :
  search_loop q limit clks shift used len ahead results m = (Some out, m') →
  Z.of_nat (length out) ≤ Z.max (Z.of_nat (length results) + 1) limit.
Proof.
  revert ahead results m. induction len as [|len IH]; intros ahead results m; simpl.
  - destruct (negb _); [done|]. destruct ahead; [|done]. intros [= <- _]. lia.
  - destruct (negb _); [done|].
    destruct ahead as [|e ahead]; [intros [= <- _]; lia|].
    destruct (first_match q (messages e.2)) as [txt|].
    + destruct (get_conversation_stats _ _ m) as [stats m1].
      destruct (Z.geb_spec (Z.of_nat (length (results ++
                  [{| sr_stats := stats; matching_message := txt |}]))) limit) as [Hge|Hlt].
      * intros [= <- _]. rewrite length_app in *. simpl in *. lia.
      * intros H. apply IH in H. rewrite length_app in *. simpl in *. lia.
    + destruct (Z.geb_spec (Z.of_nat (length results)) limit) as [Hge|Hlt].
      * intros [= <- _]. lia.
      * intros H. apply IH in H. lia.
Qed.

(** For a limit of at least 1 the search returns at most [limit] results. *)
Lemma search_conversations_bound clks shift query limit m :
  1 ≤ limit → Z.of_nat (length (search_conversations clks shift query limit m).1) ≤ limit.
Proof.
  intros Hlimit. unfold search_conversations.
  destruct (search_loop _ _ _ _ _ _ _ _ _) as [[results|] m'] eqn:Hloop; simpl; [|lia].
  apply search_loop_length in Hloop. simpl in Hloop. lia.
Qed.

(** C7.  With the limit 0 the search returns one result: the limit is
    compared with the number of results only after a conversation has been
    added to them. *)
Theorem search_limit_zero_returns_result shift :
  length (search_conversations (λ _, clock_at 20) shift "hello" 0 one_hello_store).1
    = 1%nat ∧
  matching_message <$>
    (search_conversations (λ _, clock_at 20) shift "hello" 0 one_hello_store).1
    = ["Hello there"].
Proof. by vm_compute. Qed.

Example search_limit_one_of_five shift :
  (λ r, (st_call_sid (sr_stats r), matching_message r)) <$>
    (search_conversations (λ _, clock_at 20) shift "hello" 1 five_hello_store).1
  = [("CA1", "Hello")].
Proof. by vm_compute. Qed.

(** * The properties on concrete stores *)

(** C1 (amended) on [demo_ops], from the fresh manager. *)
Lemma get_history_append_order_witness :
  wf (init 1000 3600 0) ∧
  not_ended "CA1" (init 1000 3600 0) ∧
  Forall (λ op, ¬ ends "CA1" op) demo_ops ∧
  content <$> appends_to "CA1" demo_ops = ["Hello"; "Hi!"; "How are you?"] ∧
  h_content <$>
    (get_history (clock_at 40) "CA1" 2 (run demo_ops (init 1000 3600 0))).1
    = ["Hi!"; "How are you?"] ∧
  (get_history (clock_at 40) "CA1" 0 (run demo_ops (init 1000 3600 0))).1
    = history_entry <$> appends_to "CA1" demo_ops.
Proof.
  split; [compute_done|]. split; [by vm_compute|]. split; [compute_done|].
  split; [by vm_compute|]. split; [by vm_compute|].
  destruct (get_history_append_order "CA1" demo_ops (init 1000 3600 0))
    as (_ & _ & Hall & _); [compute_done|by vm_compute|compute_done|].
  apply Hall.
Defined.

(** C2 (amended) for a call SID that [one_hello_store] does not know. *)
Lemma get_history_store_effect_witness :
  wf one_hello_store ∧
  (get_history (clock_at 20) "CA2" 10 one_hello_store).1 = [] ∧
  (conversations (get_history (clock_at 20) "CA2" 10 one_hello_store).2).*1
    = ["CA1"; "CA2"] ∧
  (get_history (clock_at 20) "CA2" 10 one_hello_store).2
    = (get_conversation (clock_at 20) "CA2" None None one_hello_store).2.
Proof.
  split; [compute_done|]. split; [by vm_compute|]. split; [by vm_compute|].
  apply (get_history_store_effect (clock_at 20) "CA2" 10 one_hello_store).
  compute_done.
Defined.

(** C3 on [crowded_store]: the pass removes CA1, the older of the two ended
    conversations, and keeps the active CA3. *)
Lemma eviction_respects_activity_witness :
  wf crowded_store ∧
  (conversations crowded_store).*1 = ["CA1"; "CA2"; "CA3"] ∧
  (conversations (_cleanup_old_conversations 3600000040 40 crowded_store)).*1
    = ["CA2"; "CA3"] ∧
  ∀ e, e ∈ conversations crowded_store → is_active e.2 = true →
       e ∈ conversations (_cleanup_old_conversations 3600000040 40 crowded_store).
Proof.
  split; [compute_done|]. split; [by vm_compute|]. split; [by vm_compute|].
  apply (eviction_respects_activity 3600000040 40 crowded_store). compute_done.
Defined.

(** C5 on [ended_store], whose conversation CA1 is ended: through an
    append, reads, a search, two eviction passes that run (one and two
    hours later) and [get_conversation] for CA1 and for a new call, the
    conversation object of CA1 is still in the store, and inactive. *)
Lemma is_active_monotonic_witness :
  wf ended_store ∧
  (λ e, (e.1, obj_id e.2, is_active e.2)) <$> conversations ended_store
    = [("CA1", 0%nat, false)] ∧
  (λ e, (e.1, obj_id e.2, is_active e.2)) <$> conversations (run ended_ops ended_store)
    = [("CA1", 0%nat, false); ("CA2", 1%nat, true)] ∧
  last_cleanup (run ended_ops ended_store) = hours 2 ∧
  ∃ e e', e ∈ conversations ended_store ∧ is_active e.2 = false ∧
          e' ∈ conversations (run ended_ops ended_store) ∧
          obj_id e'.2 = obj_id e.2 ∧ is_active e'.2 = false.
Proof.
  split; [compute_done|]. split; [by vm_compute|]. split; [by vm_compute|].
  split; [by vm_compute|].
  assert (∃ e d, conversations ended_store = e :: d) as (e & d & Hd)
    by (vm_compute; eauto).
  assert (∃ e' d', conversations (run ended_ops ended_store) = e' :: d')
    as (e' & d' & Hd') by (vm_compute; eauto).
  assert (is_active e.2 = false) as Hact
    by (vm_compute in Hd; injection Hd as <- _; reflexivity).
  assert (obj_id e'.2 = obj_id e.2) as Hid
    by (vm_compute in Hd, Hd'; injection Hd as <- _; injection Hd' as <- _; reflexivity).
  assert (e ∈ conversations ended_store) as He by (rewrite Hd; left).
  assert (e' ∈ conversations (run ended_ops ended_store)) as He' by (rewrite Hd'; left).
  exists e, e'. split; [exact He|]. split; [exact Hact|]. split; [exact He'|].
  split; [exact Hid|].
  destruct (is_active_monotonic ended_ops ended_store) as (_ & Hmono & _);
    [compute_done|].
  exact (Hmono e e' He Hact He' Hid).
Defined.

(** C6 on [aged_dict] at [hours 100]. *)
Lemma age_sweep_removes_old_witness :
  NoDup aged_dict.*1 ∧
  (age_sweep (hours 100 - hours 24) aged_dict).*1 = ["CA2"; "CA3"] ∧
  age_sweep (hours 100 - hours 24) aged_dict =
    filter (λ e, is_active e.2 = true ∨ hours 100 - hours 24 ≤ start_time e.2) aged_dict.
Proof.
  split; [compute_done|]. split; [by vm_compute|].
  apply (age_sweep_removes_old (hours 100) 1000 aged_dict). compute_done.
Defined.

(** C8 (amended) on [crowded_store]. *)
Lemma eviction_pass_size_bound_witness :
  wf crowded_store ∧
  cleanup_interval crowded_store * 1000000 ≤ 3600000040 - last_cleanup crowded_store ∧
  dict_len (conversations (_cleanup_old_conversations 3600000040 40 crowded_store))
    ≤ Z.max (max_conversations crowded_store)
            (dict_len (filter (λ e, is_active e.2 = true) (conversations crowded_store))).
Proof.
  split; [compute_done|]. split; [by vm_compute|].
  apply (eviction_pass_size_bound 3600000040 40 crowded_store);
    [compute_done|by vm_compute].
Defined.

(** C9 on [ended_store]: ended at 20, ended again at 50. *)
Lemma end_conversation_again_witness :
  dict_get "CA1" (conversations ended_store)
    = Some (ended 20 21
              (append_to {| role := "user"; content := "Hello"; timestamp := 10;
                            msg_metadata := ∅ |} 10
                 (new_conversation "CA1" None None 10 0))) ∧
  (end_conversation 50 51 "CA1" ended_store).1 = true ∧
  ∃ c', dict_get "CA1" (conversations (end_conversation 50 51 "CA1" ended_store).2)
          = Some c' ∧
        is_active c' = false ∧
        metadata c' !! "end_time" = Some (VIso 50) ∧
        metadata c' !! "duration" = Some (total_seconds (51 - 10)).
Proof.
  split; [by vm_compute|].
  apply (end_conversation_again 50 51 "CA1" ended_store
           (ended 20 21
              (append_to {| role := "user"; content := "Hello"; timestamp := 10;
                            msg_metadata := ∅ |} 10
                 (new_conversation "CA1" None None 10 0))));
    by vm_compute.
Defined.

(** C10 on [one_hello_store], with a message of the role ["system"]. *)
Lemma stats_counts_by_role_witness :
  wf one_hello_store ∧ not_ended "CA1" one_hello_store ∧
  let st :=
    (get_conversation_stats (clock_at 40) "CA1"
       (add_message (clock_at 30) "CA1" "system" "Be brief." None one_hello_store).2).1 in
  total_messages st = 2 ∧ user_messages st = 1 ∧ assistant_messages st = 0 ∧
  (add_message (clock_at 30) "CA1" "system" "Be brief." None one_hello_store).1 = true ∧
  user_messages st + assistant_messages st < total_messages st.
Proof.
  split; [compute_done|]. split; [by vm_compute|].
  split; [by vm_compute|]. split; [by vm_compute|]. split; [by vm_compute|].
  destruct (stats_counts_by_role (clock_at 30) "CA1" "system" "Be brief." None
              (clock_at 40) one_hello_store) as (Hok & _ & _ & _ & _ & Hless & Hread).
  split; [exact Hok|]. apply Hless.
  rewrite Hread; [|compute_done|by vm_compute].
  eexists. split; [apply elem_of_app; right; left|]. by vm_compute.
Defined.


(** * Further properties of the manager *)

(** ** Lookup *)

(** X1.  Looking a call up twice gives the same conversation object: for a
    call SID without an ended conversation, a second [get_conversation]
    returns the conversation that the first one returned, in the same
    state, whatever caller numbers it is given and whatever the clock
    reads; it adds nothing to the store. *)
Theorem get_conversation_twice clk1 clk2 sid f1 t1 f2 t2 m :
  wf m → not_ended sid m →
  let first := get_conversation clk1 sid f1 t1 m in
  let second := get_conversation clk2 sid f2 t2 first.2 in
  second.1 = first.1 ∧
  dict_get sid (conversations second.2) = Some first.1 ∧
  conversations second.2 `sublist_of` conversations first.2 ∧
  next_id second.2 = next_id first.2.
Proof.
  intros Hwf Hlive first second.
  destruct (get_conversation_not_ended clk1 sid f1 t1 m Hwf Hlive) as [Hact _].
  pose proof (get_conversation_stored clk1 sid f1 t1 m) as Hstored.
  pose proof (get_conversation_wf clk1 sid f1 t1 m Hwf) as Hwf1.
  fold first in Hact, Hstored, Hwf1.
  pose proof (cleanup_get_active (time_time clk2) (now_cutoff clk2) first.2 sid
                first.1 Hwf1 Hstored Hact) as Hkept.
  pose proof (cleanup_sublist (time_time clk2) (now_cutoff clk2) first.2 Hwf1) as Hsub.
  pose proof (cleanup_next_id (time_time clk2) (now_cutoff clk2) first.2) as Hid.
  unfold second.
  destruct (get_conversation_cases clk2 sid f2 t2 first.2)
    as [[Hget _]|(c & Hget & ->)]; [congruence|].
  simpl. assert (c = first.1) as -> by congruence. done.
Qed.

(** ** The readers agree *)

(** X2.  [get_history] returns a suffix of the entire history, the one that
    the limit 0 gives: with a positive limit it has [limit] entries, or all
    of them when the conversation has fewer; a limit that is not below the
    number of messages, like a limit [<= 0], gives the entire history. *)
Theorem get_history_bounds clk sid limit m :
  let h := (get_history clk sid limit m).1 in
  let full := (get_history clk sid 0 m).1 in
  h `suffix_of` full ∧
  length h = (if limit >? 0 then Nat.min (Z.to_nat limit) (length full)
              else length full) ∧
  Z.of_nat (length h) ≤ Z.max limit (Z.of_nat (length full)) ∧
  (Z.of_nat (length full) ≤ limit ∨ limit ≤ 0 → h = full).
Proof.
  intros h full. unfold h, full. rewrite !get_history_result.
  set (msgs := messages (get_conversation clk sid None None m).1).
  change (0 >? 0) with false. cbv iota.
  destruct (Z.gtb_spec limit 0) as [Hpos|Hneg].
  - unfold slice_last. rewrite fmap_drop.
    split; [apply suffix_drop|]. rewrite length_drop, !length_fmap.
    split; [lia|]. split; [lia|]. intros [Hall|?]; [|lia].
    replace (length msgs - Z.to_nat limit)%nat with 0%nat by lia. done.
  - split; [done|]. split; [done|]. split; [lia|done].
Qed.

(** X3.  The three readers of a conversation see the same conversation
    and leave the same store: the messages of [export_conversation] are the
    entire history of [get_history], [total_messages] of the statistics is
    their number, and the activity flag of the export is the one of the
    statistics. *)
Theorem readers_agree clk sid m :
  ex_messages (export_conversation clk sid m).1 = (get_history clk sid 0 m).1 ∧
  total_messages (get_conversation_stats clk sid m).1
    = Z.of_nat (length (get_history clk sid 0 m).1) ∧
  ex_is_active (export_conversation clk sid m).1
    = st_is_active (get_conversation_stats clk sid m).1 ∧
  ex_call_sid (export_conversation clk sid m).1 = call_sid (get_conversation clk sid None None m).1 ∧
  (export_conversation clk sid m).2 = (get_conversation clk sid None None m).2 ∧
  (get_history clk sid 0 m).2 = (get_conversation clk sid None None m).2 ∧
  (get_conversation_stats clk sid m).2 = (get_conversation clk sid None None m).2.
Proof.
  unfold export_conversation, get_history, get_conversation_stats.
  destruct (get_conversation clk sid None None m) as [c m']. simpl.
  by rewrite length_fmap.
Qed.

(** ** Statistics *)

Lemma with_role_all (msgs : list Message) :
  (length (with_role "user" msgs) + length (with_role "assistant" msgs)
   = length msgs)%nat ↔
  Forall (λ x, role x = "user" ∨ role x = "assistant") msgs.
Proof.
  split.
  - intros Heq. apply Forall_forall. intros x Hx.
    destruct (decide (role x = "user")) as [|Hu]; [by left|].
    destruct (decide (role x = "assistant")) as [|Ha]; [by right|].
    assert (∃ y, y ∈ msgs ∧ role y ≠ "user" ∧ role y ≠ "assistant") as Hother
      by (by exists x).
    apply with_role_lt in Hother. lia.
  - intros Hall. induction Hall as [|x msgs Hx _ IH]; [done|].
    unfold with_role in *. rewrite !filter_cons.
    destruct (decide (role x = "user")) as [Hu|Hu],
             (decide (role x = "assistant")) as [Ha|Ha]; simpl; try lia.
    + rewrite Hu in Ha. discriminate.
    + by destruct Hx.
Qed.

(** X4.  In the statistics the messages of the roles ["user"] and
    ["assistant"] never count for more than [total_messages], and they add
    up to it exactly when every message of the conversation has one of
    the two roles. *)
Theorem stats_counts_partition clk sid m :
  let st := (get_conversation_stats clk sid m).1 in
  let c := (get_conversation clk sid None None m).1 in
  0 ≤ user_messages st ∧ 0 ≤ assistant_messages st ∧
  user_messages st + assistant_messages st ≤ total_messages st ∧
  (user_messages st + assistant_messages st = total_messages st ↔
   Forall (λ x, role x = "user" ∨ role x = "assistant") (messages c)).
Proof.
  intros st c.
  destruct (stats_result clk sid m) as (_ & _ & Htotal & Huser & Hassistant).
  fold st c in Htotal, Huser, Hassistant.
  pose proof (with_role_le (messages c)) as Hle.
  pose proof (with_role_all (messages c)) as Hall.
  rewrite Htotal, Huser, Hassistant. split; [lia|]. split; [lia|]. split; [lia|].
  rewrite <- Hall. lia.
Qed.

(** ** Conversation objects over time *)

(** X5.  The store-managed metadata agree with the conversation in every
    store that the operations produce: when they do in the store one starts
    from (as in the empty store of a new manager), then after any sequence
    of operations every conversation is stored under its own call SID,
    [message_count] is its number of messages and is there, like
    [last_activity], exactly when it has messages, and [end_time] and
    [duration] are there exactly when it is not active. *)
Theorem metadata_stay_consistent ops m :
  wf m → Forall (λ e, metadata_consistent e.2) (conversations m) →
  Forall (λ e, call_sid e.2 = e.1 ∧ metadata_consistent e.2)
         (conversations (run ops m)).
Proof.
  intros Hwf Hall. destruct (run_unfolds ops m Hwf) as ((_ & _ & Hsid) & _ & Hu).
  rewrite Forall_forall in *. intros e' He'.
  split; [by destruct (Hsid e' He')|].
  destruct (Hu e' He') as [(e & He & _ & Hg)|(_ & f & t & now & Hg)].
  - eapply grown_from_consistent; [exact Hg|]. by apply Hall.
  - eapply grown_from_consistent; [exact Hg|]. apply new_conversation_consistent.
Qed.

(** X6.  The operations only append to a conversation: for a conversation
    object of the store and the same object after any sequence of
    operations, the call SID it is stored under, its [call_sid],
    caller numbers and start time are unchanged, and its messages then
    begin with the messages it had, in the same order. *)
Theorem conversation_append_only ops m e e' :
  wf m → e ∈ conversations m → e' ∈ conversations (run ops m) →
  obj_id e'.2 = obj_id e.2 →
  e'.1 = e.1 ∧ call_sid e'.2 = call_sid e.2 ∧
  from_number e'.2 = from_number e.2 ∧ to_number e'.2 = to_number e.2 ∧
  start_time e'.2 = start_time e.2 ∧
  messages e.2 `prefix_of` messages e'.2.
Proof.
  intros Hwf He He' Hid. pose proof Hwf as (_ & Hi & Hall).
  rewrite Forall_forall in Hall.
  destruct (run_unfolds ops m Hwf) as (_ & _ & Hu).
  destruct (Hu e' He') as [(e0 & He0 & Hk & Hg)|[Hnew _]].
  - destruct (grown_from_fields _ _ Hg) as (Hid0 & ? & ? & ? & ? & ? & _).
    assert (e0 = e) as ->; [|by repeat split].
    apply list_elem_of_lookup in He0 as [i Hi0].
    apply list_elem_of_lookup in He as [j Hj].
    assert (i = j) as ->; [|congruence].
    apply (NoDup_lookup _ i j (obj_id e.2) Hi); rewrite list_lookup_fmap.
    + rewrite Hi0. simpl. congruence.
    + by rewrite Hj.
  - destruct (Hall e He) as [Hlt _]. lia.
Qed.

(** ** The eviction pass, once more *)

Lemma filter_all {A} (P : A → Prop) `{!∀ x, Decision (P x)} (l : list A) :
  Forall P l → filter P l = l.
Proof.
  induction 1 as [|x l Hx _ IH]; [done|]. by rewrite filter_cons_True, IH.
Qed.

Lemma filter_none {A} (P : A → Prop) `{!∀ x, Decision (P x)} (l : list A) :
  Forall (λ x, ¬ P x) l → filter P l = [].
Proof.
  induction 1 as [|x l Hx _ IH]; [done|]. by rewrite filter_cons_False.
Qed.

(** X7.  A pass leaves nothing for a second pass at the same time: the
    store after the pass holds no inactive conversation older than 24
    hours, and it is within the cap or all active, so that running the pass
    again changes nothing. *)
Theorem eviction_pass_idempotent now max_conv (d : Dict) :
  NoDup d.*1 →
  eviction_pass now max_conv (eviction_pass now max_conv d)
    = eviction_pass now max_conv d.
Proof.
  intros Hnd. unfold eviction_pass.
  set (keep := λ e : string * Conversation,
         ¬ (start_time e.2 < now - hours 24 ∧ is_active e.2 = false)).
  set (d1 := age_sweep (now - hours 24) d).
  assert (d1 = filter keep d) as Hd1 by (by apply age_sweep_filter).
  assert (NoDup d1.*1) as Hnd1 by (rewrite Hd1; by apply filter_keys_NoDup).
  set (d2 := capacity_sweep max_conv d1).
  assert (d2 `sublist_of` d1) as Hsub.
  { unfold d2. rewrite capacity_sweep_filter by done. apply sublist_filter. }
  assert (NoDup d2.*1) as Hnd2.
  { eapply sublist_NoDup; [exact Hnd1|]. by apply fmap_sublist. }
  assert (age_sweep (now - hours 24) d2 = d2) as ->.
  { rewrite age_sweep_filter by done. apply filter_all, Forall_forall.
    intros e He. apply (elem_of_sublist _ _ _ He) in Hsub.
    rewrite Hd1 in Hsub. by apply list_elem_of_filter in Hsub as [? _]. }
  destruct (capacity_sweep_bound max_conv d1 Hnd1) as [Hle|Hact].
  - fold d2 in Hle. unfold capacity_sweep at 1.
    destruct (Z.gtb_spec (dict_len d2) max_conv) as [?|_]; [lia|done].
  - fold d2 in Hact. rewrite capacity_sweep_filter by done. unfold capacity_victims.
    rewrite (filter_none _ (sorted_by_start d2)).
    + rewrite take_nil. apply filter_keys_nil.
    + apply Forall_forall. intros e He Hina.
      rewrite (sorted_by_start_perm d2) in He. rewrite (Hact e He) in Hina. done.
Qed.

(** ** Search *)

Section search_facts.
Implicit Types (d : Dict) (k sid : string) (c : Conversation)
  (e : string * Conversation) (m : ConversationManager) (p q s : string).

Lemma starts_with_spec p s : starts_with p s = true ↔ ∃ b, s = p +:+ b.
Proof.
  revert s. induction p as [|a p IH]; intros s; simpl.
  - split; [intros _; by exists s|done].
  - destruct s as [|a' s]; simpl.
    + split; [done|]. by intros [b Hb].
    + rewrite andb_true_iff, bool_decide_eq_true, IH. split.
      * intros [-> [b ->]]. by exists b.
      * intros [b [= -> ->]]. split; [done|]. by exists b.
Qed.

Lemma contains_spec p s : contains p s = true ↔ is_substring p s.
Proof.
  unfold is_substring. split.
  - induction s as [|a s IH]; simpl; rewrite orb_true_iff.
    + intros [H|?]; [|done]. apply starts_with_spec in H as [b ->]. by exists "", b.
    + intros [H|H].
      * apply starts_with_spec in H as [b Hb]. by exists "", b.
      * destruct (IH H) as (x & y & ->). by exists (String a x), y.
  - intros (x & y & ->). induction x as [|a x IH]; simpl.
    + assert (starts_with p (p +:+ y) = true) as Hs
        by (apply starts_with_spec; by exists y).
      destruct (p +:+ y); simpl; by rewrite Hs.
    + rewrite IH. apply orb_true_r.
Qed.

Lemma first_match_spec q (msgs : list Message) txt :
  first_match q msgs = Some txt ↔ first_matching q msgs txt.
Proof.
  unfold first_matching. split.
  - induction msgs as [|msg msgs IH]; simpl; [done|].
    destruct (contains q (lower (content msg))) eqn:Hc.
    + intros [= <-]. exists [], msg, msgs. split; [done|]. split; [done|].
      split; [by apply contains_spec|constructor].
    + intros H. destruct (IH H) as (before & msg' & after & -> & Htxt & Hsub & Hbefore).
      exists (msg :: before), msg', after. split; [done|]. split; [done|].
      split; [done|]. constructor; [|done]. rewrite <- contains_spec. by rewrite Hc.
  - intros (before & msg & after & -> & <- & Hsub & Hbefore).
    induction Hbefore as [|x before Hx _ IH]; simpl.
    + apply contains_spec in Hsub. by rewrite Hsub.
    + rewrite <- contains_spec in Hx. by destruct (contains q (lower (content x))).
Qed.

Lemma shrinks_refl m : wf m → shrinks m m.
Proof. intros Hwf. split; [done|]. split; [done|]. intros e' He'. by left. Qed.

Lemma shrinks_trans m1 m2 m3 : shrinks m1 m2 → shrinks m2 m3 → shrinks m1 m3.
Proof.
  intros (_ & Hn12 & H12) (Hwf3 & Hn23 & H23).
  split; [done|]. split; [lia|]. intros e3 He3.
  destruct (H23 e3 He3) as [He2|[Hnew Hmsgs]]; [by apply H12|].
  right. split; [lia|done].
Qed.

(** The store after a call of [get_conversation_stats] holds conversations
    that were there, in their order, and behind them the one that the call
    has made, if any; this one has no messages. *)
Lemma stats_store clk sid m :
  wf m →
  ∃ kept made,
    conversations (get_conversation_stats clk sid m).2 = kept ++ made ∧
    kept `sublist_of` conversations m ∧
    Forall (λ e, (next_id m ≤ obj_id e.2)%nat ∧ messages e.2 = []) made.
Proof.
  intros Hwf. destruct (stats_result clk sid m) as [-> _].
  pose proof (cleanup_sublist (time_time clk) (now_cutoff clk) m Hwf) as Hsub.
  pose proof (cleanup_next_id (time_time clk) (now_cutoff clk) m) as Hid.
  destruct (get_conversation_cases clk sid None None m)
    as [[Hget ->]|(c & Hget & ->)]; simpl.
  - eexists _, [_]. split; [done|]. split; [done|].
    constructor; [|constructor]. simpl. split; [lia|done].
  - eexists _, []. rewrite app_nil_r. split; [done|]. split; [done|constructor].
Qed.

Lemma get_conversation_stats_shrinks clk sid m :
  wf m → shrinks m (get_conversation_stats clk sid m).2.
Proof.
  intros Hwf. destruct (get_conversation_stats_grows clk sid m Hwf) as (Hwf' & Hn & _).
  destruct (stats_store clk sid m Hwf) as (kept & made & Hd & Hkept & Hmade).
  split; [done|]. split; [done|]. intros e' He'. rewrite Hd in He'.
  apply elem_of_app in He' as [He'|He'].
  - left. by apply (elem_of_sublist _ _ _ He').
  - right. rewrite Forall_forall in Hmade. by apply Hmade.
Qed.

Lemma stats_call_sid clk sid m : st_call_sid (get_conversation_stats clk sid m).1 = sid.
Proof.
  unfold get_conversation_stats. by destruct (get_conversation clk sid None None m).
Qed.

Lemma filter_sublist_mono {A} (P : A → Prop) `{!∀ x, Decision (P x)} (l1 l2 : list A) :
  l1 `sublist_of` l2 → filter P l1 `sublist_of` filter P l2.
Proof.
  induction 1 as [|x l1 l2 _ IH|x l1 l2 _ IH]; [done|..]; rewrite ?filter_cons.
  - destruct (decide (P x)); [by apply sublist_skip|done].
  - destruct (decide (P x)); [by apply sublist_cons|done].
Qed.

(** Of two selections from a list without repeated identities, the
    entries of the second whose identity occurs in the first are a
    selection from the first. *)
Lemma filter_ids_sublist (l1 l2 l : Dict) :
  NoDup (obj_id ∘ snd <$> l) → l1 `sublist_of` l → l2 `sublist_of` l →
  filter (λ e, obj_id e.2 ∈ (obj_id ∘ snd <$> l1)) l2 `sublist_of` l1.
Proof.
  revert l1 l2. induction l as [|x l IH]; intros l1 l2 Hnd H1 H2.
  - apply sublist_nil_r in H1 as ->. by apply sublist_nil_r in H2 as ->.
  - rewrite fmap_cons in Hnd. apply NoDup_cons in Hnd as [Hx Hnd].
    assert (∀ l', l' `sublist_of` l → (obj_id ∘ snd) x ∉ (obj_id ∘ snd <$> l')) as Hfresh.
    { intros l' Hl' Hin. apply Hx.
      apply list_elem_of_fmap in Hin as (y & Hy & Hin).
      apply list_elem_of_fmap. exists y. split; [done|].
      by apply (elem_of_sublist _ _ _ Hin). }
    assert (∀ l1' l2', l1' `sublist_of` l → l2' `sublist_of` l →
              filter (λ e, obj_id e.2 ∈ (obj_id ∘ snd <$> x :: l1')) l2'
                `sublist_of` x :: l1') as Hrest.
    { intros l1' l2' H1' H2'. apply sublist_cons.
      rewrite (filter_on_elements _ (λ e, obj_id e.2 ∈ (obj_id ∘ snd <$> l1')));
        [by apply IH|].
      intros e He. rewrite fmap_cons, elem_of_cons. split; [|auto].
      intros [Heq|?]; [|done]. exfalso. apply (Hfresh l2' H2').
      apply list_elem_of_fmap. by exists e. }
    apply sublist_cons_r in H1 as [H1|(l1' & -> & H1)];
      apply sublist_cons_r in H2 as [H2|(l2' & -> & H2)].
    + by apply IH.
    + rewrite filter_cons_False by (by apply Hfresh). by apply IH.
    + by apply Hrest.
    + rewrite filter_cons_True by (rewrite fmap_cons; left).
      apply sublist_skip.
      rewrite (filter_on_elements _ (λ e, obj_id e.2 ∈ (obj_id ∘ snd <$> l1')));
        [by apply IH|].
      intros e He. rewrite fmap_cons, elem_of_cons. split; [|auto].
      intros [Heq|?]; [|done]. exfalso. apply (Hfresh l2' H2).
      apply list_elem_of_fmap. by exists e.
Qed.

(** The conversations with messages that the iterator has before it after
    a round are among those it had before it. *)
Lemma still_ahead_sublist (ahead kept made d : Dict) (n : nat) :
  NoDup (obj_id ∘ snd <$> d) → Forall (λ e, (obj_id e.2 < n)%nat) d →
  ahead `sublist_of` d → kept `sublist_of` d →
  Forall (λ e, (n ≤ obj_id e.2)%nat ∧ messages e.2 = []) made →
  filter (λ e, messages e.2 ≠ []) (still_ahead ahead n (kept ++ made))
    `sublist_of` filter (λ e, messages e.2 ≠ []) ahead.
Proof.
  intros Hnd Hlt Hahead Hkept Hmade. unfold still_ahead. rewrite !filter_app.
  rewrite (filter_none (λ e, messages e.2 ≠ []) (filter _ made)).
  - rewrite app_nil_r. apply filter_sublist_mono.
    rewrite (filter_on_elements _ (λ e, obj_id e.2 ∈ (obj_id ∘ snd <$> ahead)));
      [by apply (filter_ids_sublist _ _ d)|].
    intros e He. split; [|auto]. intros [?|Hge]; [done|].
    apply (elem_of_sublist _ _ _ He) in Hkept. rewrite Forall_forall in Hlt.
    specialize (Hlt e Hkept). simpl in Hlt. lia.
  - apply Forall_forall. intros e He Hne. apply list_elem_of_filter in He as [_ He].
    rewrite Forall_forall in Hmade. by destruct (Hmade e He).
Qed.

Lemma next_ahead_sublist (b : bool) (i : nat) (l : Dict) :
  (if b then drop i l else l) `sublist_of` l.
Proof. destruct b; [apply sublist_drop|done]. Qed.

(** The loop picks conversations of the store it started with, in their
    order, each at most once. *)
Lemma search_loop_sound q limit clks shift used len m0 passed tail ahead results m out m' :
  wf m0 → shrinks m0 m → conversations m0 = passed ++ tail →
  ahead `sublist_of` conversations m →
  filter (λ e, messages e.2 ≠ []) ahead `sublist_of` tail →
  (∃ picks, picks `sublist_of` passed ∧
     Forall2 (λ e r, (found r).1 = e.1 ∧ first_match q (messages e.2) = Some (found r).2)
             picks results) →
  search_loop q limit clks shift used len ahead results m = (Some out, m') →
  ∃ picks, picks `sublist_of` conversations m0 ∧
     Forall2 (λ e r, (found r).1 = e.1 ∧ first_match q (messages e.2) = Some (found r).2)
             picks out.
Proof.
  intros Hwf0. revert passed tail ahead results m.
  assert (∀ passed tail results,
    conversations m0 = passed ++ tail →
    (∃ picks, picks `sublist_of` passed ∧
       Forall2 (λ e r, (found r).1 = e.1 ∧ first_match q (messages e.2) = Some (found r).2)
               picks results) →
    Some results = Some out →
    ∃ picks, picks `sublist_of` conversations m0 ∧
       Forall2 (λ e r, (found r).1 = e.1 ∧ first_match q (messages e.2) = Some (found r).2)
               picks out) as Hdone.
  { intros passed tail results Hd (picks & Hsub & Hall) [= <-].
    exists picks. split; [|done]. rewrite Hd. by apply sublist_inserts_r. }
  induction len as [|len IH]; intros passed tail ahead results m Hs Hd Hahead Htail Hpicks;
    simpl.
  - destruct (negb _); [done|]. destruct ahead; [|done].
    intros [= Hout _]. eapply Hdone; [done..|by rewrite Hout].
  - destruct (negb _); [done|]. destruct ahead as [|e ahead].
    { intros [= Hout _]. eapply Hdone; [done..|by rewrite Hout]. }
    pose proof Hs as (Hwf & _ & _). pose proof Hwf as (_ & Hi & Hall).
    rewrite Forall_forall in Hall.
    assert (e ∈ conversations m) as He
      by (apply (elem_of_sublist _ _ _ (list_elem_of_here e ahead) Hahead)).
    assert (ahead `sublist_of` conversations m) as Hahead'
      by (etrans; [|exact Hahead]; by apply sublist_cons).
    assert (Forall (λ e, (obj_id e.2 < next_id m)%nat) (conversations m)) as Hlt.
    { apply Forall_forall. intros x Hx. by destruct (Hall x Hx). }
    destruct (first_match q (messages e.2)) as [txt|] eqn:Hmatch.
    + assert (messages e.2 ≠ []) as Hne by (intros Hnil; by rewrite Hnil in Hmatch).
      rewrite filter_cons_True in Htail by done.
      apply sublist_cons_l in Htail as (k1 & k2 & -> & Htail).
      pose proof (get_conversation_stats_shrinks (clks (length results)) (call_sid e.2)
                    m Hwf) as Hs1.
      pose proof (stats_call_sid (clks (length results)) (call_sid e.2) m) as Hsid.
      destruct (stats_store (clks (length results)) (call_sid e.2) m Hwf)
        as (kept & made & Hstore & Hkept & Hmade).
      destruct (get_conversation_stats _ _ m) as [stats m1]. simpl in Hs1, Hsid, Hstore.
      assert (∃ picks', picks' `sublist_of` passed ++ k1 ++ [e] ∧
         Forall2 (λ e r, (found r).1 = e.1 ∧
                         first_match q (messages e.2) = Some (found r).2)
           picks' (results ++ [{| sr_stats := stats; matching_message := txt |}]))
        as Hpick.
      { destruct Hpicks as (picks & Hsub & Hall2). exists (picks ++ [e]). split.
        - apply sublist_app; [done|]. by apply sublist_inserts_l.
        - apply Forall2_app; [done|]. constructor; [|constructor]. simpl.
          split; [|done]. rewrite Hsid. by destruct (Hall e He). }
      assert (conversations m0 = (passed ++ k1 ++ [e]) ++ k2) as Hd'
        by (rewrite Hd, <- !app_assoc; done).
      destruct (_ >=? limit).
      * intros [= Hout _]. eapply Hdone; [exact Hd'|exact Hpick|by rewrite Hout].
      * apply (IH (passed ++ k1 ++ [e]) k2); [by eapply shrinks_trans|done| | |done].
        -- etrans; [apply next_ahead_sublist|]. apply sublist_filter.
        -- etrans; [apply filter_sublist_mono, next_ahead_sublist|].
           etrans; [|exact Htail]. rewrite Hstore.
           by apply (still_ahead_sublist _ _ _ (conversations m)).
    + destruct (_ >=? limit).
      * intros [= Hout _]. eapply Hdone; [done..|by rewrite Hout].
      * apply (IH passed tail); [done|done| | |done].
        -- etrans; [apply next_ahead_sublist|]. apply sublist_filter.
        -- etrans; [apply filter_sublist_mono, next_ahead_sublist|].
           etrans; [|exact Htail]. etrans; [|by apply filter_sublist_mono, sublist_cons].
           rewrite <- (app_nil_r (conversations m)).
           apply (still_ahead_sublist _ _ _ (conversations m)); [done..|constructor].
Qed.

End search_facts.

(** X8.  Every result of a search stands for a conversation that was in the
    store when the search began: the results follow the insertion order of
    the store, no conversation gives two results, and each result has the
    call SID of its conversation and, as [matching_message], the content
    of the first message of that conversation whose content contains the
    query when both are taken in lower case.  This holds whatever the
    eviction passes during the search remove and whatever the iterator
    skips after the table of the dictionary was rebuilt. *)
Theorem search_results_sound clks shift query limit m :
  wf m →
  let results := (search_conversations clks shift query limit m).1 in
  (∃ picks, picks `sublist_of` conversations m ∧
     Forall2 (λ e r, st_call_sid (sr_stats r) = e.1 ∧
                     first_matching (lower query) (messages e.2) (matching_message r))
             picks results) ∧
  NoDup (st_call_sid ∘ sr_stats <$> results) ∧
  (length results ≤ length (conversations m))%nat.
Proof.
  intros Hwf results.
  assert (∃ picks, picks `sublist_of` conversations m ∧
     Forall2 (λ e r, (found r).1 = e.1 ∧
                     first_match (lower query) (messages e.2) = Some (found r).2)
             picks results) as (picks & Hsub & Hall).
  { unfold results, search_conversations.
    destruct (search_loop _ _ _ _ _ _ _ _ _) as [[out|] m'] eqn:Hloop; simpl.
    - apply (search_loop_sound _ _ _ _ _ _ m [] (conversations m) _ _ _ _ _ Hwf
               (shrinks_refl m Hwf) eq_refl) in Hloop; [done|done|apply sublist_filter|].
      exists []. split; [done|constructor].
    - exists []. split; [apply sublist_nil_l|constructor]. }
  assert (st_call_sid ∘ sr_stats <$> results = picks.*1) as Hsids.
  { clear -Hall. induction Hall as [|e r picks results [He _] _ IH]; [done|].
    rewrite !fmap_cons. f_equal; [exact He|exact IH]. }
  split; [|split].
  - exists picks. split; [done|]. eapply Forall2_impl; [exact Hall|].
    intros e r [He Hm]. split; [done|]. by apply first_match_spec.
  - rewrite Hsids. destruct Hwf as (Hk & _).
    eapply sublist_NoDup; [exact Hk|]. by apply fmap_sublist.
  - rewrite <- (Forall2_length _ _ _ Hall). by apply sublist_length.
Qed.

(** X9.  A search returns at most [limit] results when the limit is at least
    1, and at most one result for every other limit, whatever the eviction
    passes during the search remove and whatever the iterator skips. *)
Theorem search_at_most_limit clks shift query limit m :
  Z.of_nat (length (search_conversations clks shift query limit m).1) ≤ Z.max 1 limit.
Proof.
  unfold search_conversations.
  destruct (search_loop _ _ _ _ _ _ _ _ _) as [[results|] m'] eqn:Hloop; simpl; [|lia].
  apply search_loop_length in Hloop. simpl in Hloop. lia.
Qed.

(** A search of [first_ended_store] 30 hours later.  The statistics call
    for CA1 runs the eviction pass, which removes CA1, and makes CA1 anew,
    in the last place and without messages.  When the table of the
    dictionary is rebuilt for this (it is, in a dictionary that has had
    just these five insertions), the iterator skips CA2 and the search
    returns four results, the first one with the statistics of the new
    CA1.  When it is not rebuilt, the iterator finds the new CA1 behind
    CA5 although it has handed out its five entries, and the search ends
    in [return []]; with the limit 2 it has returned before. *)
Example search_over_recreated_conversation :
  let summary := λ out : list SearchResult * ConversationManager,
    ((λ r, (st_call_sid (sr_stats r), total_messages (sr_stats r))) <$> out.1,
     (conversations out.2).*1) in
  summary (search_conversations (λ _, clock_at (hours 30)) (λ _, 1%nat) "hello" 20
             first_ended_store)
    = ([("CA1", 0); ("CA3", 1); ("CA4", 1); ("CA5", 1)],
       ["CA2"; "CA3"; "CA4"; "CA5"; "CA1"]) ∧
  summary (search_conversations (λ _, clock_at (hours 30)) (λ _, 0%nat) "hello" 20
             first_ended_store)
    = ([], ["CA2"; "CA3"; "CA4"; "CA5"; "CA1"]) ∧
  summary (search_conversations (λ _, clock_at (hours 30)) (λ _, 0%nat) "hello" 2
             first_ended_store)
    = ([("CA1", 0); ("CA2", 1)], ["CA2"; "CA3"; "CA4"; "CA5"; "CA1"]).
Proof. by vm_compute. Qed.

Section throttled_facts.
Implicit Types (d : Dict) (k sid : string) (c : Conversation)
  (e : string * Conversation) (m : ConversationManager) (q : string).

(** While the pass is throttled the statistics of a stored conversation
    leave the manager as it is. *)
Lemma stats_throttled clk e m :
  wf m → e ∈ conversations m →
  time_time clk - last_cleanup m < cleanup_interval m * 1000000 →
  (get_conversation_stats clk (call_sid e.2) m).2 = m ∧
  st_call_sid (get_conversation_stats clk (call_sid e.2) m).1 = e.1 ∧
  st_start_time (get_conversation_stats clk (call_sid e.2) m).1
    = VIso (start_time e.2) ∧
  total_messages (get_conversation_stats clk (call_sid e.2) m).1
    = Z.of_nat (length (messages e.2)) ∧
  st_is_active (get_conversation_stats clk (call_sid e.2) m).1 = is_active e.2.
Proof.
  intros (Hk & _ & Hall) He Hthrottle. rewrite Forall_forall in Hall.
  destruct (Hall e He) as [_ Hsid]. destruct e as [k c]. simpl in *.
  pose proof (dict_get_NoDup _ _ _ Hk He) as Hget. rewrite <- Hsid in Hget.
  unfold get_conversation_stats, get_conversation, _cleanup_old_conversations.
  destruct (Z.ltb_spec (time_time clk - last_cleanup m)
              (cleanup_interval m * 1000000)) as [_|?]; [|lia].
  rewrite Hget. simpl. by rewrite Hsid.
Qed.

(** A round of the loop when the dictionary has the size the iterator
    expects. *)
Lemma search_loop_entry q limit clks shift used len e (ahead : Dict) results m :
  length (conversations m) = used →
  search_loop q limit clks shift used (S len) (e :: ahead) results m =
    let '(results', m') :=
      match first_match q (messages e.2) with
      | Some txt =>
          let '(stats, m') :=
            get_conversation_stats (clks (length results)) (call_sid e.2) m in
          (results ++ [{| sr_stats := stats; matching_message := txt |}], m')
      | None => (results, m)
      end in
    if Z.of_nat (length results') >=? limit then (Some results', m')
    else
      search_loop q limit clks shift used len
        (if (next_id m <? next_id m')%nat
         then drop (shift (length results))
                (still_ahead ahead (next_id m) (conversations m'))
         else still_ahead ahead (next_id m) (conversations m'))
        results' m'.
Proof. intros <-. simpl. by rewrite Nat.eqb_refl. Qed.

Lemma search_loop_end q limit clks shift used len results m :
  length (conversations m) = used →
  search_loop q limit clks shift used len [] results m = (Some results, m).
Proof. intros <-. destruct len; simpl; by rewrite Nat.eqb_refl. Qed.

(** When the dictionary has not changed the iterator has before it what it
    had before it. *)
Lemma still_ahead_suffix (passed ahead : Dict) m :
  wf m → conversations m = passed ++ ahead →
  still_ahead ahead (next_id m) (conversations m) = ahead.
Proof.
  intros (_ & Hi & Hall) Hd. unfold still_ahead. rewrite Hd in *.
  rewrite fmap_app in Hi. apply NoDup_app in Hi as (_ & Hdisj & _).
  apply Forall_app in Hall as [Hp _]. rewrite filter_app.
  rewrite (filter_none _ passed), (filter_all _ ahead); [done|..].
  - apply Forall_forall. intros e He. left. apply list_elem_of_fmap. by exists e.
  - apply Forall_forall. intros e He [Hin|Hge].
    + apply (Hdisj (obj_id e.2)); [|done]. apply list_elem_of_fmap. by exists e.
    + rewrite Forall_forall in Hp. destruct (Hp e He) as [Hlt _]. lia.
Qed.

Lemma matching_conversations_cons q e d :
  matching_conversations q (e :: d) =
    match first_match q (messages e.2) with
    | Some txt => (e.1, txt) :: matching_conversations q d
    | None => matching_conversations q d
    end.
Proof.
  unfold matching_conversations. simpl.
  by destruct (first_match q (messages e.2)).
Qed.

Lemma search_loop_throttled q limit clks shift len (passed ahead : Dict) results m :
  wf m → throttled clks m → conversations m = passed ++ ahead →
  (length ahead ≤ len)%nat → Z.of_nat (length results) < limit →
  ∃ out, search_loop q limit clks shift (length (conversations m)) len ahead results m
           = (Some out, m) ∧
         found <$> out =
           (found <$> results) ++
             take (Z.to_nat limit - length results) (matching_conversations q ahead).
Proof.
  intros Hwf Hthrottle. revert passed ahead results.
  induction len as [|len IH]; intros passed ahead results Hd Hlen Hres.
  - destruct ahead; [|simpl in Hlen; lia]. rewrite search_loop_end by done.
    exists results. split; [done|]. unfold matching_conversations. simpl.
    by rewrite take_nil, app_nil_r.
  - destruct ahead as [|e ahead].
    { rewrite search_loop_end by done. exists results. split; [done|].
      unfold matching_conversations. simpl. by rewrite take_nil, app_nil_r. }
    assert (e ∈ conversations m) as He
      by (rewrite Hd; apply elem_of_app; right; left).
    assert (conversations m = (passed ++ [e]) ++ ahead) as Hd'
      by (by rewrite <- app_assoc).
    simpl in Hlen. rewrite search_loop_entry by done.
    rewrite matching_conversations_cons.
    destruct (first_match q (messages e.2)) as [txt|] eqn:Hmatch.
    + destruct (stats_throttled (clks (length results)) e m Hwf He (Hthrottle _))
        as (Hstate & Hsid & _).
      destruct (get_conversation_stats _ _ m) as [stats m1]. simpl in Hstate, Hsid.
      subst m1.
      destruct (Z.geb_spec (Z.of_nat (length (results ++
                  [{| sr_stats := stats; matching_message := txt |}]))) limit) as [Hge|Hlt];
        rewrite length_app in *; simpl in *.
      * eexists. split; [done|]. rewrite fmap_app. simpl. f_equal.
        replace (Z.to_nat limit - length results)%nat with 1%nat by lia.
        unfold found. simpl. by rewrite Hsid, take_0.
      * rewrite Nat.ltb_irrefl, (still_ahead_suffix (passed ++ [e]) ahead m Hwf Hd').
        destruct (IH (passed ++ [e]) ahead
                     (results ++ [{| sr_stats := stats; matching_message := txt |}]) Hd')
          as (out & -> & Hout); [lia|rewrite length_app; simpl; lia|].
        exists out. split; [done|]. rewrite Hout, fmap_app, length_app, <- app_assoc.
        simpl. f_equal.
        replace (Z.to_nat limit - length results)%nat
          with (S (Z.to_nat limit - (length results + 1)))%nat by lia.
        unfold found at 1. simpl. by rewrite Hsid.
    + destruct (Z.geb_spec (Z.of_nat (length results)) limit) as [?|_]; [lia|].
      rewrite Nat.ltb_irrefl, (still_ahead_suffix (passed ++ [e]) ahead m Hwf Hd').
      apply (IH (passed ++ [e])); [done|lia|done].
Qed.

(** With a limit below 1 the loop ends after its first round. *)
Lemma search_loop_first q limit clks shift m :
  wf m → throttled clks m → limit ≤ 0 →
  ∃ out, search_loop q limit clks shift (length (conversations m))
           (length (conversations m)) (conversations m) [] m = (Some out, m) ∧
         found <$> out = matching_conversations q (take 1 (conversations m)).
Proof.
  intros Hwf Hthrottle Hlimit.
  destruct (conversations m) as [|e d] eqn:Hd.
  { exists []. split; [|done]. apply search_loop_end. by rewrite Hd. }
  assert (e ∈ conversations m) as He by (rewrite Hd; left).
  simpl length. rewrite search_loop_entry by (by rewrite Hd).
  change (take 1 (e :: d)) with [e]. rewrite matching_conversations_cons.
  destruct (first_match q (messages e.2)) as [txt|].
  - destruct (stats_throttled (clks 0%nat) e m Hwf He (Hthrottle _))
      as (Hstate & Hsid & _).
    simpl length.
    destruct (get_conversation_stats _ _ m) as [stats m1]. simpl in Hstate, Hsid.
    subst m1. simpl.
    destruct (Z.geb_spec (Z.of_nat 1) limit) as [_|?]; [|lia].
    eexists. split; [done|]. unfold found. simpl. by rewrite Hsid.
  - simpl. destruct (Z.geb_spec (Z.of_nat 0) limit) as [_|?]; [|lia]. by exists [].
Qed.

Lemma all_conversations_loop_length clks i (l : Dict) m :
  length (all_conversations_loop clks i l m).1 = length l.
Proof.
  revert i m. induction l as [|e l IH]; intros i m; simpl; [done|].
  destruct (get_conversation_stats (clks i) (call_sid e.2) m) as [stats m1].
  specialize (IH (S i) m1).
  destruct (all_conversations_loop clks (S i) l m1) as [summaries m2].
  simpl in *. by rewrite IH.
Qed.

Lemma all_conversations_loop_throttled clks i (l : Dict) m :
  wf m → throttled clks m → (∀ e, e ∈ l → e ∈ conversations m) →
  (all_conversations_loop clks i l m).2 = m ∧
  Forall2 (λ e st, st_call_sid st = e.1 ∧ st_start_time st = VIso (start_time e.2) ∧
                   total_messages st = Z.of_nat (length (messages e.2)) ∧
                   st_is_active st = is_active e.2)
          l (all_conversations_loop clks i l m).1.
Proof.
  intros Hwf Hthrottle. revert i.
  induction l as [|e l IH]; intros i Hl; simpl; [by split; [|constructor]|].
  assert (e ∈ conversations m) as He by (apply Hl; left).
  destruct (stats_throttled (clks i) e m Hwf He (Hthrottle _)) as (Hstate & Hst).
  destruct (get_conversation_stats (clks i) (call_sid e.2) m) as [stats m1].
  simpl in Hstate, Hst. subst m1.
  destruct (IH (S i)) as [Hstate' Hall]; [intros e' He'; apply Hl; by right|].
  destruct (all_conversations_loop clks (S i) l m) as [summaries m2].
  simpl in *. split; [done|]. by constructor.
Qed.

(** *** The stable sort, newest first *)

Lemma insert_newest_first_split e (s : Dict) :
  ∃ s1 s2, s = s1 ++ s2 ∧ insert_newest_first e s = s1 ++ e :: s2 ∧
           Forall (λ x, start_time e.2 < start_time x.2) s1.
Proof.
  induction s as [|x s IH]; simpl.
  - exists [], []. repeat split. constructor.
  - destruct (Z.leb_spec (start_time x.2) (start_time e.2)) as [Hle|Hlt].
    + exists [], (x :: s). repeat split. constructor.
    + destruct IH as (s1 & s2 & -> & -> & Hall).
      exists (x :: s1), s2. repeat split. by constructor.
Qed.

Lemma insert_newest_first_perm e (s : Dict) : insert_newest_first e s ≡ₚ e :: s.
Proof.
  destruct (insert_newest_first_split e s) as (s1 & s2 & -> & -> & _).
  symmetry. apply Permutation_middle.
Qed.

Lemma sorted_newest_first_perm d : sorted_newest_first d ≡ₚ d.
Proof.
  induction d as [|e d IH]; simpl; [done|].
  rewrite insert_newest_first_perm. by rewrite IH.
Qed.

Lemma sorted_newest_first_sorted d :
  StronglySorted (λ a b, by_start b a) (sorted_newest_first d).
Proof.
  induction d as [|e d IH]; simpl; [constructor|].
  revert IH. generalize (sorted_newest_first d). intros s Hs.
  induction s as [|x s IHs]; simpl.
  - repeat constructor.
  - apply StronglySorted_cons in Hs as [Hx Hs].
    destruct (Z.leb_spec (start_time x.2) (start_time e.2)) as [Hle|Hlt].
    + apply StronglySorted_cons. split.
      * constructor; [done|]. eapply Forall_impl; [exact Hx|].
        intros y Hy. unfold by_start in *. lia.
      * by apply StronglySorted_cons.
    + apply StronglySorted_cons. split; [|auto].
      rewrite insert_newest_first_perm. constructor; [|done].
      unfold by_start. lia.
Qed.

Lemma sorted_newest_first_stable (t : datetime) d :
  filter (λ e, start_time e.2 = t) (sorted_newest_first d) =
  filter (λ e, start_time e.2 = t) d.
Proof.
  induction d as [|e d IH]; simpl; [done|].
  destruct (insert_newest_first_split e (sorted_newest_first d))
    as (s1 & s2 & Hs & -> & Hall).
  rewrite Hs in IH. rewrite filter_app in *. rewrite !filter_cons.
  destruct (decide (start_time e.2 = t)) as [Ht|Ht]; [|done].
  assert (filter (λ e0, start_time e0.2 = t) s1 = []) as Hs1.
  { clear -Hall Ht. induction Hall as [|x s1 Hx _ IHs]; [done|].
    rewrite filter_cons_False by lia. done. }
  rewrite Hs1 in *. simpl in *. by rewrite IH.
Qed.

End throttled_facts.

(** X10.  While the eviction pass is throttled a search leaves the manager
    as it is and returns, in the insertion order of the store, the
    conversations with a matching message, each with its first matching
    message: the first [limit] of them when the limit is at least 1.  With
    a limit below 1 it looks at the first conversation of the store
    only. *)
Theorem search_throttled clks shift query limit m :
  wf m → throttled clks m →
  (search_conversations clks shift query limit m).2 = m ∧
  found <$> (search_conversations clks shift query limit m).1 =
    if limit >? 0
    then take (Z.to_nat limit) (matching_conversations (lower query) (conversations m))
    else matching_conversations (lower query) (take 1 (conversations m)).
Proof.
  intros Hwf Hthrottle. unfold search_conversations.
  destruct (Z.gtb_spec limit 0) as [Hpos|Hneg].
  - destruct (search_loop_throttled (lower query) limit clks shift
                (length (conversations m)) [] (conversations m) [] m Hwf Hthrottle)
      as (out & -> & Hout); [done|done|simpl; lia|].
    simpl. split; [done|]. rewrite Hout. simpl. by rewrite Nat.sub_0_r.
  - by destruct (search_loop_first (lower query) limit clks shift m Hwf Hthrottle Hneg)
      as (out & -> & Hout).
Qed.

(** X11.  [get_all_conversations] returns one summary for each conversation
    of the slice [[:limit]] of the store: with a limit that is not negative
    as many as the limit says, or all when the store holds fewer; with a
    negative limit all but the last [-limit] of the sorted list. *)
Theorem get_all_conversations_length clks limit m :
  length (get_all_conversations clks limit m).1 =
    if limit <? 0 then (length (conversations m) - Z.to_nat (- limit))%nat
    else Nat.min (Z.to_nat limit) (length (conversations m)).
Proof.
  unfold get_all_conversations. rewrite all_conversations_loop_length.
  unfold slice_first.
  pose proof (Permutation_length (sorted_newest_first_perm (conversations m))) as Hlen.
  destruct (limit <? 0); rewrite length_take; lia.
Qed.

(** X12.  While the eviction pass is throttled [get_all_conversations]
    leaves the manager as it is and lists the conversations newest first:
    its summaries are those of the first [limit] conversations of the store
    sorted by descending start time, conversations with the same start
    time in their insertion order. *)
Theorem get_all_conversations_newest_first clks limit m :
  wf m → throttled clks m → 0 ≤ limit →
  (get_all_conversations clks limit m).2 = m ∧
  ∃ order,
    order ≡ₚ conversations m ∧
    StronglySorted (λ a b, start_time b.2 ≤ start_time a.2) order ∧
    (∀ t, filter (λ e, start_time e.2 = t) order
          = filter (λ e, start_time e.2 = t) (conversations m)) ∧
    Forall2 (λ e st, st_call_sid st = e.1 ∧ st_start_time st = VIso (start_time e.2) ∧
                     total_messages st = Z.of_nat (length (messages e.2)) ∧
                     st_is_active st = is_active e.2)
            (take (Z.to_nat limit) order) (get_all_conversations clks limit m).1.
Proof.
  intros Hwf Hthrottle Hlimit. unfold get_all_conversations, slice_first.
  destruct (Z.ltb_spec limit 0) as [?|_]; [lia|].
  destruct (all_conversations_loop_throttled clks 0
              (take (Z.to_nat limit) (sorted_newest_first (conversations m))) m
              Hwf Hthrottle) as [Hstate Hall].
  { intros e He. apply subseteq_take in He.
    by rewrite (sorted_newest_first_perm (conversations m)) in He. }
  split; [done|]. exists (sorted_newest_first (conversations m)).
  split; [apply sorted_newest_first_perm|]. split; [apply sorted_newest_first_sorted|].
  split; [intros t; apply sorted_newest_first_stable|done].
Qed.

(** * The caller and the helpers *)

(** ** The messages for the completion API *)

Lemma history_message_cases (message : gmap string string) :
  history_message message = [] ∨
  ∃ x, history_message message = [x] ∧
       (cm_role x = "user" ∨ cm_role x = "assistant") ∧
       cm_content x = default EmptyString (message !! "content") ∧
       cm_content x ≠ EmptyString.
Proof.
  unfold history_message.
  destruct (decide (default EmptyString (message !! "content") = EmptyString));
    [by left|right].
  eexists. split; [done|]. simpl. split; [|done].
  destruct (decide (message !! "role" = Some "user")); auto.
Qed.

Lemma history_messages_spec (history : list (gmap string string)) :
  (length (history ≫= history_message) ≤ length history)%nat ∧
  Forall (λ x, (cm_role x = "user" ∨ cm_role x = "assistant") ∧
               cm_content x ≠ EmptyString)
         (history ≫= history_message) ∧
  cm_content <$> (history ≫= history_message)
    `sublist_of` (λ message, default EmptyString (message !! "content")) <$> history.
Proof.
  induction history as [|message history (Hlen & Hall & Hsub)].
  - split; [done|]. split; [constructor|done].
  - rewrite bind_cons, fmap_cons, fmap_app, length_app, Forall_app.
    destruct (history_message_cases message)
      as [->|(x & -> & Hrole & Hcontent & Hfull)].
    + split; [simpl in *; lia|]. split; [by split|]. by apply sublist_cons.
    + split; [simpl in *; lia|]. split.
      * split; [|done]. by constructor.
      * simpl. rewrite Hcontent. by apply sublist_skip.
Qed.

(** X13.  The messages built for the completion API begin with the system
    message and end with the input of the user, in the role ["user"].
    Between the two there are at most 10 messages, taken in their order
    from the last 10 entries of the history; none of them has an empty
    content, and each has the role ["user"] or ["assistant"], whatever the
    role in the history was.  So there are between 2 and 12 messages. *)
Theorem build_messages_shape system_message user_input conversation_history :
  ∃ between,
    _build_messages system_message user_input conversation_history =
      {| cm_role := "system"; cm_content := system_message |} ::
        between ++ [{| cm_role := "user"; cm_content := user_input |}] ∧
    (length between ≤ 10)%nat ∧
    Forall (λ x, (cm_role x = "user" ∨ cm_role x = "assistant") ∧
                 cm_content x ≠ EmptyString) between ∧
    cm_content <$> between `sublist_of`
      (λ message, default EmptyString (message !! "content")) <$>
        slice_last 10 (default [] conversation_history) ∧
    (2 ≤ length (_build_messages system_message user_input conversation_history) ≤ 12)%nat.
Proof.
  unfold _build_messages.
  destruct conversation_history as [[|message history]|]; simpl.
  - exists []. repeat split; simpl; try lia; constructor.
  - destruct (history_messages_spec (slice_last 10 (message :: history)))
      as (Hlen & Hall & Hsub).
    exists (slice_last 10 (message :: history) ≫= history_message).
    assert (length (slice_last 10 (message :: history)) ≤ 10)%nat as Hten.
    { unfold slice_last. rewrite length_drop. lia. }
    split; [done|]. split; [lia|]. split; [done|]. split; [done|].
    rewrite length_app. simpl. lia.
  - exists []. repeat split; simpl; try lia; constructor.
Qed.

(** ** Phone numbers *)

Section string_facts.
Implicit Types (s d : string) (a : Ascii.ascii).

Lemma str_length_app s1 s2 :
  String.length (s1 +:+ s2) = (String.length s1 + String.length s2)%nat.
Proof. induction s1 as [|a s1 IH]; simpl; [done|]. by rewrite IH. Qed.

Lemma digits_of_idem s : digits_of (digits_of s) = digits_of s.
Proof.
  induction s as [|a s IH]; simpl; [done|].
  destruct (is_digit a) eqn:Ha; simpl; [|done]. by rewrite Ha, IH.
Qed.

Lemma skip_chars_length n s :
  String.length (skip_chars n s) = (String.length s - n)%nat.
Proof.
  revert s. induction n as [|n IH]; intros [|a s]; simpl; rewrite ?IH; lia.
Qed.

Lemma keep_chars_length n s :
  String.length (keep_chars n s) = Nat.min n (String.length s).
Proof.
  revert s. induction n as [|n IH]; intros [|a s]; simpl; try done. by rewrite IH.
Qed.

Lemma keep_skip_chars n s : keep_chars n s +:+ skip_chars n s = s.
Proof.
  revert s. induction n as [|n IH]; intros [|a s]; try done.
  exact (f_equal (String a) (IH s)).
Qed.

Lemma last_chars_cons a d :
  (4 ≤ String.length d)%nat → last_chars 4 (String a d) = last_chars 4 d.
Proof.
  intros Hlen. unfold last_chars. simpl String.length.
  replace (S (String.length d) - 4)%nat with (S (String.length d - 4)) by lia.
  done.
Qed.

(** The digits that [sanitize_phone_number] keeps for a number with at
    least 10 digits. *)
Lemma sanitize_digits s :
  s ≠ EmptyString → (10 ≤ String.length (digits_of s))%nat →
  ∃ d, sanitize_phone_number s = "+" +:+ d ∧ digits_of d = d ∧
       (d = digits_of s ∧ String.length (digits_of s) ≠ 10%nat ∨
        d = "1" +:+ digits_of s ∧ String.length (digits_of s) = 10%nat).
Proof.
  intros Hs Hlen. unfold sanitize_phone_number. rewrite decide_False by done.
  destruct (decide (String.length (digits_of s) = 10%nat)) as [Hten|Hten].
  - exists ("1" +:+ digits_of s). split; [done|]. split; [|by right].
    change (digits_of ("1" +:+ digits_of s)) with ("1" +:+ digits_of (digits_of s)).
    by rewrite digits_of_idem.
  - exists (digits_of s). rewrite digits_of_idem.
    destruct (bool_decide _ && _); [auto|].
    rewrite bool_decide_eq_true_2 by done. auto.
Qed.

Lemma sanitize_short s :
  (String.length (digits_of s) < 10)%nat → sanitize_phone_number s = s.
Proof.
  intros Hlen. unfold sanitize_phone_number.
  destruct (decide (s = EmptyString)) as [->|_]; [done|].
  rewrite decide_False by lia.
  rewrite (bool_decide_eq_false_2 (String.length (digits_of s) = 11%nat)) by lia.
  simpl. by rewrite bool_decide_eq_false_2 by lia.
Qed.

End string_facts.

(** X14.  Sanitizing a phone number twice gives what sanitizing it once
    gives. *)
Theorem sanitize_phone_number_idempotent s :
  sanitize_phone_number (sanitize_phone_number s) = sanitize_phone_number s.
Proof.
  destruct (decide (s = EmptyString)) as [->|Hs]; [done|].
  destruct (decide (10 ≤ String.length (digits_of s))%nat) as [Hlen|Hlen].
  - destruct (sanitize_digits s Hs Hlen) as (d & Hsan & Hd & Hcase).
    rewrite Hsan. unfold sanitize_phone_number. rewrite decide_False by done.
    change (digits_of ("+" +:+ d)) with (digits_of d). rewrite Hd.
    destruct Hcase as [[-> Hten]|[-> Hten]].
    + rewrite decide_False by done.
      destruct (bool_decide _ && _); [done|].
      by rewrite bool_decide_eq_true_2.
    + change (String.length ("1" +:+ digits_of s))
        with (S (String.length (digits_of s))).
      change (starts_with "1" ("1" +:+ digits_of s)) with true.
      rewrite decide_False by lia. by rewrite bool_decide_eq_true_2 by lia.
  - rewrite (sanitize_short s) by lia. by rewrite (sanitize_short s) by lia.
Qed.


(** X16.  The mask of a phone number that is not empty has 12 characters,
    and sanitizing a number does not change its mask: the mask shows the
    last four digits of the number and nothing else of it. *)
Theorem mask_phone_number_sanitized s :
  (s ≠ EmptyString → String.length (mask_phone_number s) = 12%nat) ∧
  (mask_phone_number s = EmptyString ↔ s = EmptyString) ∧
  mask_phone_number (sanitize_phone_number s) = mask_phone_number s.
Proof.
  split; [|split].
  - intros Hs. unfold mask_phone_number. rewrite decide_False by done.
    destruct (bool_decide_reflect (4 ≤ String.length (digits_of s))%nat); [|done].
    rewrite str_length_app. unfold last_chars. rewrite skip_chars_length. simpl. lia.
  - unfold mask_phone_number. destruct (decide (s = EmptyString)); [done|].
    split; [|done]. by destruct (bool_decide _).
  - destruct (decide (s = EmptyString)) as [->|Hs]; [done|].
    destruct (decide (10 ≤ String.length (digits_of s))%nat) as [Hlen|Hlen];
      [|by rewrite (sanitize_short s) by lia].
    destruct (sanitize_digits s Hs Hlen) as (d & Hsan & Hd & Hcase).
    rewrite Hsan. unfold mask_phone_number. rewrite !decide_False by done.
    change (digits_of ("+" +:+ d)) with (digits_of d). rewrite Hd.
    destruct Hcase as [[-> _]|[-> Hten]]; [done|].
    change (String.length ("1" +:+ digits_of s))
      with (S (String.length (digits_of s))).
    rewrite !bool_decide_eq_true_2 by lia.
    change ("1" +:+ digits_of s) with (String (Ascii.ascii_of_N 49) (digits_of s)).
    by rewrite last_chars_cons by lia.
Qed.

(** ** Truncating a text *)

(** X17.  The empty text and a text that is not longer than [max_length]
    are returned as they are.  Any other text is cut and ends with three
    dots: for a [max_length] of at least 3 the result begins like the text
    and has exactly [max_length] characters; for a [max_length] below 3 the
    result is longer than [max_length]. *)
Theorem truncate_text_length text max_length :
  (text = EmptyString ∨ Z.of_nat (String.length text) ≤ max_length →
     truncate_text text max_length = text) ∧
  (text ≠ EmptyString → max_length < Z.of_nat (String.length text) →
     ∃ kept cut, text = kept +:+ cut ∧
       truncate_text text max_length = kept +:+ "..." ∧
       (3 ≤ max_length →
          Z.of_nat (String.length (truncate_text text max_length)) = max_length) ∧
       (max_length < 3 →
          max_length < Z.of_nat (String.length (truncate_text text max_length)))).
Proof.
  unfold truncate_text. split.
  - intros [->|Hle]; [done|].
    destruct (Z.leb_spec (Z.of_nat (String.length text)) max_length);
      [by rewrite orb_true_r|lia].
  - intros Hne Hlt. rewrite bool_decide_eq_false_2 by done.
    destruct (Z.leb_spec (Z.of_nat (String.length text)) max_length); [lia|]. simpl.
    unfold first_chars.
    destruct (Z.ltb_spec (max_length - 3) 0) as [Hneg|Hpos].
    + exists (keep_chars (String.length text - Z.to_nat (- (max_length - 3))) text),
             (skip_chars (String.length text - Z.to_nat (- (max_length - 3))) text).
      split; [by rewrite keep_skip_chars|]. split; [done|].
      split; [lia|]. intros _. rewrite str_length_app. simpl. lia.
    + exists (keep_chars (Z.to_nat (max_length - 3)) text),
             (skip_chars (Z.to_nat (max_length - 3)) text).
      split; [by rewrite keep_skip_chars|]. split; [done|].
      split; [|lia]. intros _. rewrite str_length_app, keep_chars_length. simpl. lia.
Qed.

(** ** Rate limits *)

Section rate_limit_facts.
Implicit Types (h times : list datetime) (now : datetime)
  (call_history : gmap string (list datetime)).

Lemma calls_within_all now window h :
  Forall (λ t, now - t < window) h → calls_within now window h = h.
Proof.
  unfold calls_within. induction 1 as [|t h Ht _ IH]; [done|].
  rewrite filter_cons, decide_True by done. by f_equal.
Qed.

(** A call when all the calls on record are less than a minute old. *)
Lemma rate_limit_check_recent now call_sid rate_limits call_history h :
  default [] (call_history !! before_underscore call_sid) = h →
  Forall (λ t, now - t < minutes 1) h →
  rate_limit_check now call_sid rate_limits call_history =
    if Z.of_nat (length h) <=? lowest_limit rate_limits
    then (true, <[before_underscore call_sid := h ++ [now]]> call_history)
    else (false, <[before_underscore call_sid := h]> call_history).
Proof.
  intros Hh Hrecent. unfold rate_limit_check, lowest_limit. rewrite Hh.
  assert (calls_within now (days 1) h = h) as ->.
  { apply calls_within_all. eapply Forall_impl; [done|].
    intros t. unfold minutes, days. simpl. lia. }
  rewrite (calls_within_all now (minutes 1)) by done.
  assert (calls_within now (hours 1) h = h) as ->.
  { apply calls_within_all. eapply Forall_impl; [done|].
    intros t. unfold minutes, hours. simpl. lia. }
  destruct (Z.gtb_spec (Z.of_nat (length h))
              (default 10 (rate_limits !! "calls_per_minute")));
  destruct (Z.gtb_spec (Z.of_nat (length h))
              (default 100 (rate_limits !! "calls_per_hour")));
  destruct (Z.gtb_spec (Z.of_nat (length h))
              (default 1000 (rate_limits !! "calls_per_day")));
  destruct (Z.leb_spec (Z.of_nat (length h))
              (Z.min (default 10 (rate_limits !! "calls_per_minute"))
                 (Z.min (default 100 (rate_limits !! "calls_per_hour"))
                        (default 1000 (rate_limits !! "calls_per_day")))));
  simpl; done || lia.
Qed.

(** A burst on top of [h], the calls on record. *)
Lemma rate_limit_burst_from h times call_sid rate_limits call_history :
  default [] (call_history !! before_underscore call_sid) = h →
  (∀ t t', t ∈ h ++ times → t' ∈ h ++ times → t' - t < minutes 1) →
  (rate_limit_burst times call_sid rate_limits call_history).1 =
    replicate
      (length times `min` (Z.to_nat (lowest_limit rate_limits + 1) - length h)) true ++
    replicate
      (length times - (Z.to_nat (lowest_limit rate_limits + 1) - length h)) false ∧
  default []
    ((rate_limit_burst times call_sid rate_limits call_history).2
       !! before_underscore call_sid) =
    h ++ take (Z.to_nat (lowest_limit rate_limits + 1) - length h) times.
Proof.
  revert h call_history. induction times as [|now times IH]; intros h call_history Hh Hmin.
  - simpl. by rewrite Hh, take_nil, app_nil_r.
  - simpl.
    rewrite (rate_limit_check_recent now call_sid rate_limits call_history h Hh); last first.
    { apply Forall_forall. intros t Ht.
      apply Hmin; rewrite elem_of_app, ?elem_of_cons; auto. }
    destruct (Z.leb_spec (Z.of_nat (length h)) (lowest_limit rate_limits)) as [Hle|Hgt].
    + destruct (IH (h ++ [now])
                  (<[before_underscore call_sid := h ++ [now]]> call_history))
        as [Hflags Hhistory].
      { by rewrite lookup_insert_eq. }
      { by rewrite <- app_assoc. }
      destruct (rate_limit_burst times call_sid rate_limits _) as [oks history2].
      simpl in *. rewrite Hflags, Hhistory, length_app. simpl.
      replace (Z.to_nat (lowest_limit rate_limits + 1) - length h)%nat
        with (S (Z.to_nat (lowest_limit rate_limits + 1) - (length h + 1))) by lia.
      simpl. by rewrite <- app_assoc.
    + destruct (IH h (<[before_underscore call_sid := h]> call_history))
        as [Hflags Hhistory].
      { by rewrite lookup_insert_eq. }
      { intros t t' [?|?]%elem_of_app [?|?]%elem_of_app;
          apply Hmin; rewrite elem_of_app, elem_of_cons; auto. }
      destruct (rate_limit_burst times call_sid rate_limits _) as [oks history2].
      simpl in *. rewrite Hflags, Hhistory.
      replace (Z.to_nat (lowest_limit rate_limits + 1) - length h)%nat with 0%nat by lia.
      by rewrite Nat.min_0_r, Nat.sub_0_r.
Qed.

End rate_limit_facts.

(** X18.  A burst of calls from a phone number without calls on record,
    every two of them less than a minute apart: with [limit] the lowest of
    the three configured limits, the first [limit + 1] calls are allowed
    and every later one is refused (none is allowed for a negative limit),
    and the record of the phone number holds the times of the allowed
    calls. *)
Theorem rate_limit_burst_allows times call_sid rate_limits call_history :
  call_history !! before_underscore call_sid = None →
  within_a_minute times →
  let allowed := Z.to_nat (lowest_limit rate_limits + 1) in
  (rate_limit_burst times call_sid rate_limits call_history).1 =
    replicate (length times `min` allowed) true ++
    replicate (length times - allowed) false ∧
  default []
    ((rate_limit_burst times call_sid rate_limits call_history).2
       !! before_underscore call_sid) = take allowed times.
Proof.
  intros Hnone Hmin allowed.
  destruct (rate_limit_burst_from [] times call_sid rate_limits call_history)
    as [Hflags Hhistory]; [by rewrite Hnone| |].
  { intros t t' Ht Ht'. unfold within_a_minute in Hmin.
    rewrite Forall_forall in Hmin. specialize (Hmin t Ht).
    rewrite Forall_forall in Hmin. by apply Hmin. }
  simpl in Hflags, Hhistory. by rewrite Nat.sub_0_r in Hflags, Hhistory.
Qed.

(** * The further properties on concrete inputs *)

(** X1 for the call CA2, which [one_hello_store] does not know: the second
    lookup, with a caller number, returns the conversation created by the
    first. *)
Lemma get_conversation_twice_witness :
  wf one_hello_store ∧ not_ended "CA2" one_hello_store ∧
  (get_conversation (clock_at 30) "CA2" (Some "+15550100") None
     (get_conversation (clock_at 20) "CA2" None None one_hello_store).2).1
  = (get_conversation (clock_at 20) "CA2" None None one_hello_store).1.
Proof.
  split; [compute_done|]. split; [by vm_compute|].
  destruct (get_conversation_twice (clock_at 20) (clock_at 30) "CA2"
              None None (Some "+15550100") None one_hello_store)
    as [Hsame _]; [compute_done|by vm_compute|].
  exact Hsame.
Defined.

(** X5 on [demo_ops], from the fresh manager. *)
Lemma metadata_stay_consistent_witness :
  wf (init 1000 3600 0) ∧
  (conversations (run demo_ops (init 1000 3600 0))).*1 = ["CA1"; "CA2"] ∧
  Forall (λ e, call_sid e.2 = e.1 ∧ metadata_consistent e.2)
         (conversations (run demo_ops (init 1000 3600 0))).
Proof.
  split; [compute_done|]. split; [by vm_compute|].
  apply (metadata_stay_consistent demo_ops (init 1000 3600 0));
    [compute_done|by vm_compute].
Defined.

(** X6 on [demo_ops], from [one_hello_store]. *)
Lemma conversation_append_only_witness :
  wf one_hello_store ∧
  ∀ e e', e ∈ conversations one_hello_store →
    e' ∈ conversations (run demo_ops one_hello_store) →
    obj_id e'.2 = obj_id e.2 →
    e'.1 = e.1 ∧ call_sid e'.2 = call_sid e.2 ∧
    from_number e'.2 = from_number e.2 ∧ to_number e'.2 = to_number e.2 ∧
    start_time e'.2 = start_time e.2 ∧
    messages e.2 `prefix_of` messages e'.2.
Proof.
  split; [compute_done|]. intros e e'.
  apply (conversation_append_only demo_ops one_hello_store e e'). compute_done.
Defined.

(** X7 on [aged_dict] at [hours 100], with the cap 2. *)
Lemma eviction_pass_idempotent_witness :
  NoDup aged_dict.*1 ∧
  (eviction_pass (hours 100) 2 aged_dict).*1 = ["CA2"; "CA3"] ∧
  eviction_pass (hours 100) 2 (eviction_pass (hours 100) 2 aged_dict)
    = eviction_pass (hours 100) 2 aged_dict.
Proof.
  split; [compute_done|]. split; [by vm_compute|].
  apply (eviction_pass_idempotent (hours 100) 2 aged_dict). compute_done.
Defined.

(** X8 on [five_hello_store]. *)
Lemma search_results_sound_witness :
  wf five_hello_store ∧
  NoDup (st_call_sid ∘ sr_stats <$>
           (search_conversations (λ _, clock_at 20) (λ _, 0%nat) "Hello" 3
              five_hello_store).1) ∧
  (length (search_conversations (λ _, clock_at 20) (λ _, 0%nat) "Hello" 3
             five_hello_store).1
     ≤ length (conversations five_hello_store))%nat.
Proof.
  split; [compute_done|].
  destruct (search_results_sound (λ _, clock_at 20) (λ _, 0%nat) "Hello" 3
              five_hello_store)
    as (_ & Hnodup & Hlen); [compute_done|].
  split; [exact Hnodup|exact Hlen].
Defined.

(** X10 on [five_hello_store]: the first two of the five matches. *)
Lemma search_throttled_witness :
  wf five_hello_store ∧
  throttled (λ _, clock_at 20) five_hello_store ∧
  matching_conversations "hello" (conversations five_hello_store) =
    [("CA1", "Hello"); ("CA2", "hello, anyone?"); ("CA3", "Well, HELLO!");
     ("CA4", "Oh hello"); ("CA5", "hElLo")] ∧
  (search_conversations (λ _, clock_at 20) (λ _, 0%nat) "HELLO" 2 five_hello_store).2
    = five_hello_store ∧
  found <$>
    (search_conversations (λ _, clock_at 20) (λ _, 0%nat) "HELLO" 2 five_hello_store).1
    = take 2 (matching_conversations "hello" (conversations five_hello_store)).
Proof.
  split; [compute_done|]. split; [intros i; by vm_compute|]. split; [by vm_compute|].
  apply (search_throttled (λ _, clock_at 20) (λ _, 0%nat) "HELLO" 2 five_hello_store);
    [compute_done|intros i; by vm_compute].
Defined.

(** X12 on [five_hello_store], with the limit 3. *)
Lemma get_all_conversations_newest_first_witness :
  wf five_hello_store ∧
  throttled (λ _, clock_at 20) five_hello_store ∧
  st_call_sid <$> (get_all_conversations (λ _, clock_at 20) 3 five_hello_store).1
    = ["CA5"; "CA4"; "CA3"] ∧
  (get_all_conversations (λ _, clock_at 20) 3 five_hello_store).2 = five_hello_store.
Proof.
  split; [compute_done|]. split; [intros i; by vm_compute|]. split; [by vm_compute|].
  destruct (get_all_conversations_newest_first (λ _, clock_at 20) 3 five_hello_store)
    as [Hsame _]; [compute_done|intros i; by vm_compute|lia|].
  exact Hsame.
Defined.


(** X17 on a text of 11 characters, cut to 8. *)
Lemma truncate_text_length_witness :
  truncate_text "Hello there" 8 = "Hello..." ∧
  ∃ kept cut, "Hello there" = kept +:+ cut ∧
    truncate_text "Hello there" 8 = kept +:+ "..." ∧
    (3 ≤ 8 → Z.of_nat (String.length (truncate_text "Hello there" 8)) = 8) ∧
    (8 < 3 → 8 < Z.of_nat (String.length (truncate_text "Hello there" 8))).
Proof.
  split; [by vm_compute|].
  apply (truncate_text_length "Hello there" 8); [done|by vm_compute].
Defined.

(** X18 with the limit of 2 calls per minute, on four calls from the same
    phone number at intervals of ten seconds: three are allowed. *)
Lemma rate_limit_burst_allows_witness :
  (∅ : gmap string (list datetime)) !! before_underscore "5550100_a" = None ∧
  within_a_minute [0; 10000000; 20000000; 30000000] ∧
  (rate_limit_burst [0; 10000000; 20000000; 30000000] "5550100_a"
     {[ "calls_per_minute" := 2 ]} ∅).1 = [true; true; true; false] ∧
  default []
    ((rate_limit_burst [0; 10000000; 20000000; 30000000] "5550100_a"
        {[ "calls_per_minute" := 2 ]} ∅).2 !! before_underscore "5550100_a")
    = [0; 10000000; 20000000].
Proof.
  split; [by vm_compute|]. split; [compute_done|].
  assert (Z.to_nat (lowest_limit {[ "calls_per_minute" := 2 ]} + 1) = 3%nat)
    as Hallowed by (by vm_compute).
  destruct (rate_limit_burst_allows [0; 10000000; 20000000; 30000000] "5550100_a"
              {[ "calls_per_minute" := 2 ]} ∅) as [Hflags Hhistory];
    [by vm_compute|compute_done|].
  rewrite Hallowed in Hflags, Hhistory. split; [exact Hflags|exact Hhistory].
Defined.
